(** * The scope (visualisation) buffer of the GStreamer engine

    A shallow embedding of the scope subsystem of [src/engines/gstengine.cpp]:
    the delay queue of audio buffers, [PruneScope], [UpdateScope], [scope],
    [ClearScopeQ] and the engine methods that touch that state
    ([NewBuffer], [play], [stop], [seek], [load], ...).

    Conventions.
    - C++ [int], [gint64] and [quint64] values are integers of [Z]; every
      conversion between them that the code performs is written out
      ([to_quint64], [to_qint64], [to_int]), and unsigned arithmetic wraps.
    - Behaviour that C++ leaves undefined (integer division by zero, a read
      outside a buffer's data, a write outside [current_scope_], signed
      overflow, a call through a null pipeline pointer) ends the run with a
      [Fault].
    - [SCOPESIZE] is declared in a header that is not part of the sources at
      hand; it is a parameter of the development. *)

From stdpp Require Import base list strings.
From Stdlib Require Import ZArith Lia.

Local Open Scope Z_scope.

(** ** Machine integers *)

Definition INT_MIN : Z := - 2 ^ 31.
Definition INT_MAX : Z := 2 ^ 31 - 1.

(** Conversion to [quint64] / [guint64]: reduction modulo 2^64. *)
Definition to_quint64 (x : Z) : Z := x mod 2 ^ 64.

(** Conversion to [qint64] / [gint64]: the two's complement reading. *)
Definition to_qint64 (x : Z) : Z := (x + 2 ^ 63) mod 2 ^ 64 - 2 ^ 63.

(** Conversion to [int] (32 bits, two's complement). *)
Definition to_int (x : Z) : Z := (x + 2 ^ 31) mod 2 ^ 32 - 2 ^ 31.

(** ** Outcomes of a run *)

Inductive fault : Set :=
| DivisionByZero
| ReadOutOfBounds
| WriteOutOfBounds
| SignedOverflow
| NullPipeline
| OutOfFuel.

#[global] Instance fault_eq_dec : EqDecision fault.
Proof. solve_decision. Defined.

Inductive outcome (A : Type) : Type :=
| Done (a : A)
| Fault (f : fault).

Arguments Done {A} a.
Arguments Fault {A} f.

#[global] Instance outcome_ret : MRet outcome := fun A a => Done a.
#[global] Instance outcome_bind : MBind outcome := fun A B k m =>
  match m with
  | Done a => k a
  | Fault f => Fault f
  end.

(** [int / int]: truncating division, undefined on a zero divisor. *)
Definition int_div (a b : Z) : outcome Z :=
  if b =? 0 then Fault DivisionByZero else Done (Z.quot a b).

(** [quint64 / quint64]. *)
Definition quint64_div (a b : Z) : outcome Z :=
  if b =? 0 then Fault DivisionByZero else Done (a / b).

(** [int + int]: undefined when the sum leaves the range of [int]. *)
Definition int_add (a b : Z) : outcome Z :=
  if (INT_MIN <=? a + b) && (a + b <=? INT_MAX) then Done (a + b)
  else Fault SignedOverflow.

(** ** Buffers and the pipeline *)

(** A [GstBuffer] as the engine reads it.  [GST_BUFFER_DATA] is the payload
    seen through the [sampletype*] cast (16-bit samples, interleaved by
    channel); [caps_channels] is the "channels" field of the first caps
    structure when it is present and an integer. *)
Record GstBuffer : Type := {
  GST_BUFFER_TIMESTAMP : Z;
  GST_BUFFER_DURATION : Z;
  GST_BUFFER_DATA : list Z;
  caps_channels : option Z
}.

Definition sizeof_sampletype : Z := 2.

(** Size of the payload in bytes. *)
Definition GST_BUFFER_SIZE (buf : GstBuffer) : Z :=
  sizeof_sampletype * Z.of_nat (length (GST_BUFFER_DATA buf)).

(** [gst_structure_get_int(structure, "channels", &channels)]: the variable
    keeps its previous value when the field is missing. *)
Definition gst_structure_get_int (field : option Z) (current : Z) : Z :=
  default current field.

(** What the engine asks of a [GstEnginePipeline]: its position, whether a
    seek to a given time succeeds, and whether it can be set playing. *)
Record GstEnginePipeline : Type := {
  position : Z;
  Seek : Z -> bool;
  SetState_PLAYING : bool
}.

Definition GST_MSECOND : Z := 1000000.

(** ** The engine *)

Record GstEngine : Type := {
  delayq_ : list GstBuffer;
  current_sample_ : Z;
  current_scope_ : list Z;
  m_scope : list Z;
  current_pipeline_ : option GstEnginePipeline;
  fadeout_pipeline_ : option GstEnginePipeline;
  fadeout_enabled_ : bool
}.

Definition set_delayq_ (q : list GstBuffer) (s : GstEngine) : GstEngine :=
  {| delayq_ := q;
     current_sample_ := current_sample_ s;
     current_scope_ := current_scope_ s;
     m_scope := m_scope s;
     current_pipeline_ := current_pipeline_ s;
     fadeout_pipeline_ := fadeout_pipeline_ s;
     fadeout_enabled_ := fadeout_enabled_ s |}.

Definition set_current_sample_ (c : Z) (s : GstEngine) : GstEngine :=
  {| delayq_ := delayq_ s;
     current_sample_ := c;
     current_scope_ := current_scope_ s;
     m_scope := m_scope s;
     current_pipeline_ := current_pipeline_ s;
     fadeout_pipeline_ := fadeout_pipeline_ s;
     fadeout_enabled_ := fadeout_enabled_ s |}.

Definition set_current_scope_ (a : list Z) (s : GstEngine) : GstEngine :=
  {| delayq_ := delayq_ s;
     current_sample_ := current_sample_ s;
     current_scope_ := a;
     m_scope := m_scope s;
     current_pipeline_ := current_pipeline_ s;
     fadeout_pipeline_ := fadeout_pipeline_ s;
     fadeout_enabled_ := fadeout_enabled_ s |}.

Definition set_m_scope (a : list Z) (s : GstEngine) : GstEngine :=
  {| delayq_ := delayq_ s;
     current_sample_ := current_sample_ s;
     current_scope_ := current_scope_ s;
     m_scope := a;
     current_pipeline_ := current_pipeline_ s;
     fadeout_pipeline_ := fadeout_pipeline_ s;
     fadeout_enabled_ := fadeout_enabled_ s |}.

Definition set_current_pipeline_ (p : option GstEnginePipeline) (s : GstEngine)
  : GstEngine :=
  {| delayq_ := delayq_ s;
     current_sample_ := current_sample_ s;
     current_scope_ := current_scope_ s;
     m_scope := m_scope s;
     current_pipeline_ := p;
     fadeout_pipeline_ := fadeout_pipeline_ s;
     fadeout_enabled_ := fadeout_enabled_ s |}.

Definition set_fadeout_pipeline_ (p : option GstEnginePipeline) (s : GstEngine)
  : GstEngine :=
  {| delayq_ := delayq_ s;
     current_sample_ := current_sample_ s;
     current_scope_ := current_scope_ s;
     m_scope := m_scope s;
     current_pipeline_ := current_pipeline_ s;
     fadeout_pipeline_ := p;
     fadeout_enabled_ := fadeout_enabled_ s |}.

Definition set_fadeout_enabled_ (b : bool) (s : GstEngine) : GstEngine :=
  {| delayq_ := delayq_ s;
     current_sample_ := current_sample_ s;
     current_scope_ := current_scope_ s;
     m_scope := m_scope s;
     current_pipeline_ := current_pipeline_ s;
     fadeout_pipeline_ := fadeout_pipeline_ s;
     fadeout_enabled_ := b |}.

(** ** The delay queue (a [GQueue] of buffers, head first) *)

Definition g_queue_push_tail (q : list GstBuffer) (buf : GstBuffer)
  : list GstBuffer := q ++ [buf].

Definition g_queue_peek_head (q : list GstBuffer) : option GstBuffer := head q.

Definition g_queue_pop_head (q : list GstBuffer) : list GstBuffer := tail q.

(** [GstEngine::NewBuffer] *)
Definition NewBuffer (buf : GstBuffer) (s : GstEngine) : GstEngine :=
  set_delayq_ (g_queue_push_tail (delayq_ s) buf) s.

(** The loop of [GstEngine::ClearScopeQ]: while the queue has a length, pop
    its head and release it. *)
Fixpoint clear_loop (q : list GstBuffer) : list GstBuffer :=
  match q with
  | [] => []
  | _ :: rest => clear_loop rest
  end.

(** [GstEngine::ClearScopeQ] *)
Definition ClearScopeQ (s : GstEngine) : GstEngine :=
  set_delayq_ (clear_loop (delayq_ s)) s.

(** End time of a buffer, as both [PruneScope] and [UpdateScope] compute it:
    [quint64 etime = stime + dur]. *)
Definition buffer_etime (buf : GstBuffer) : Z :=
  to_quint64 (GST_BUFFER_TIMESTAMP buf + GST_BUFFER_DURATION buf).

(** The do-while loop of [GstEngine::PruneScope]: release the head buffer as
    long as [pos > qint64(etime)]. *)
Fixpoint prune_loop (pos : Z) (q : list GstBuffer) : list GstBuffer :=
  match q with
  | [] => []
  | buf :: rest =>
      if to_qint64 (buffer_etime buf) <? pos then prune_loop pos rest else q
  end.

(** [GstEngine::PruneScope]: the returned position and the new state. *)
Definition PruneScope (s : GstEngine) : Z * GstEngine :=
  match current_pipeline_ s with
  | None => (0, s)
  | Some pipeline =>
      let pos := position pipeline in
      (pos, set_delayq_ (prune_loop pos (delayq_ s)) s)
  end.

(** The state that [UpdateScope] works on after its call of [PruneScope]. *)
Definition pruned (s : GstEngine) : GstEngine := snd (PruneScope s).

(** A queue whose chunks end one after the other: no chunk ends before a
    chunk queued ahead of it (end times as [PruneScope] compares them). *)
Definition ends_in_order (q : list GstBuffer) : Prop :=
  forall (i j : nat) (a b : GstBuffer),
    (i <= j)%nat -> q !! i = Some a -> q !! j = Some b ->
    to_qint64 (buffer_etime a) <= to_qint64 (buffer_etime b).

(** [int off = channels * (pos - stime) / (dur / frames)]: the operands are
    promoted to [quint64], the product is formed first, and the quotient is
    converted to [int]. *)
Definition scope_offset (channels pos stime dur frames : Z) : outcome Z :=
  rate ← quint64_div dur (to_quint64 frames);
  q ← quint64_div (to_quint64 (to_quint64 channels * to_quint64 (pos - stime))) rate;
  mret (to_int q).

(** The offset as the specification words it: the frame index is floored
    first and then multiplied by the channel count. *)
Definition spec_offset (channels pos stime dur frames : Z) : Z :=
  channels * ((pos - stime) / (dur / frames)).

(** [data[k]] *)
Definition sample_load (data : list Z) (k : Z) : outcome Z :=
  if k <? 0 then Fault ReadOutOfBounds
  else match data !! Z.to_nat k with
       | Some v => Done v
       | None => Fault ReadOutOfBounds
       end.

(** Number of samples of a buffer: [GST_BUFFER_SIZE(buf) / sizeof(sampletype)]. *)
Definition buffer_sz (buf : GstBuffer) : Z :=
  GST_BUFFER_SIZE buf / sizeof_sampletype.

(** ** Pipeline lifecycle *)

(** [current_pipeline_.reset()] (or an assignment to [current_pipeline_])
    while the engine holds the last reference to the pipeline: the pipeline
    is destroyed, and its [destroyed()] signal, which [CreatePipeline]
    connects to the slot [ClearScopeQ], clears the delay queue. *)
Definition destroy_current_pipeline (s : GstEngine) : GstEngine :=
  match current_pipeline_ s with
  | None => s
  | Some _ => ClearScopeQ (set_current_pipeline_ None s)
  end.

(** [GstEngine::seek] *)
Definition seek (ms : Z) (s : GstEngine) : GstEngine :=
  match current_pipeline_ s with
  | None => s
  | Some pipeline =>
      if Seek pipeline (ms * GST_MSECOND) then ClearScopeQ s else s
  end.

(** [GstEngine::stop].  With the fade-out enabled the pipeline is handed to
    [fadeout_pipeline_] and disconnected from the engine before the queue is
    cleared, so the final [reset] destroys nothing. *)
Definition stop (s : GstEngine) : GstEngine :=
  if fadeout_enabled_ s then
    set_current_pipeline_ None
      (ClearScopeQ (set_fadeout_pipeline_ (current_pipeline_ s) s))
  else destroy_current_pipeline s.

(** [GstEngine::play]: the returned flag and the new state. *)
Definition play (offset : Z) (s : GstEngine) : outcome (bool * GstEngine) :=
  match current_pipeline_ s with
  | None => Fault NullPipeline
  | Some pipeline =>
      if SetState_PLAYING pipeline then
        let s1 := set_fadeout_pipeline_ None s in
        let s2 := if offset =? 0 then s1 else seek offset s1 in
        Done (true, set_current_sample_ 0 s2)
      else Done (false, destroy_current_pipeline s)
  end.

(** [GstEngine::load], given what [CreatePipeline] produced.  When [Init]
    fails, [CreatePipeline] resets the pipeline it has just connected: that
    pipeline is destroyed, and its [destroyed()] signal clears the delay
    queue before [load] returns false. *)
Definition load (created : option GstEnginePipeline) (s : GstEngine)
  : bool * GstEngine :=
  match created with
  | None => (false, ClearScopeQ s)
  | Some pipeline =>
      (true, set_current_pipeline_ (Some pipeline) (destroy_current_pipeline s))
  end.

(** [GstEngine::HandlePipelineError] and [GstEngine::EndOfStreamReached]
    both reset [current_pipeline_]. *)
Definition HandlePipelineError (s : GstEngine) : GstEngine :=
  destroy_current_pipeline s.

Definition EndOfStreamReached (s : GstEngine) : GstEngine :=
  destroy_current_pipeline s.

(** [GstEngine::FadeoutFinished]: the faded pipeline was disconnected. *)
Definition FadeoutFinished (s : GstEngine) : GstEngine :=
  set_fadeout_pipeline_ None s.

(** [GstEngine::timerEvent] prunes and drops the position. *)
Definition timerEvent (s : GstEngine) : GstEngine := snd (PruneScope s).

(** The pipeline plays on by itself: between two calls of the engine its
    position (and what it answers to requests) may have changed. *)
Definition pipeline_progress (p : GstEnginePipeline) (s : GstEngine)
  : GstEngine :=
  match current_pipeline_ s with
  | None => s
  | Some _ => set_current_pipeline_ (Some p) s
  end.

(** ** Extraction *)

Section Scope.

Variable SCOPESIZE : Z.

(** [current_scope_[k] = v] on the array of [SCOPESIZE] samples. *)
Definition scope_store (a : list Z) (k v : Z) : outcome (list Z) :=
  if (0 <=? k) && (k <? SCOPESIZE) then Done (<[Z.to_nat k := v]> a)
  else Fault WriteOutOfBounds.

(** The inner loop of [UpdateScope],
    [for (j = 0; j < channels && current_sample_ < SCOPESIZE; j++)
       current_scope_[current_sample_++] = data[i + j];]
    with [n] the number of values of [j] still below [channels]. *)
Fixpoint fill_frame (n : nat) (data : list Z) (i j : Z) (s : GstEngine)
  : outcome GstEngine :=
  match n with
  | O => Done s
  | S n' =>
      if current_sample_ s <? SCOPESIZE then
        v ← sample_load data (i + j);
        a ← scope_store (current_scope_ s) (current_sample_ s) v;
        fill_frame n' data i (j + 1)
          (set_current_sample_ (current_sample_ s + 1) (set_current_scope_ a s))
      else Done s
  end.

(** The outer loop of [UpdateScope],
    [while (buf && current_sample_ < SCOPESIZE && i < sz)].  The locals
    [buf], [i], [sz] and [data] are arguments; [channels] is never assigned
    inside the loop.  On a refill [stime], [dur] and [etime] are assigned
    too, but nothing reads them afterwards. *)
Fixpoint fill_loop (fuel : nat) (channels : Z) (buf : option GstBuffer)
    (i sz : Z) (data : list Z) (s : GstEngine) : outcome GstEngine :=
  match fuel with
  | O => Fault OutOfFuel
  | S fuel' =>
      match buf with
      | None => Done s
      | Some _ =>
          if (current_sample_ s <? SCOPESIZE) && (i <? sz) then
            s1 ← fill_frame (Z.to_nat channels) data i 0 s;
            i1 ← int_add i channels;
            if sz - 1 <=? i1 then
              let s2 := set_delayq_ (g_queue_pop_head (delayq_ s1)) s1 in
              match g_queue_peek_head (delayq_ s2) with
              | Some next =>
                  fill_loop fuel' channels (Some next) 0 (buffer_sz next)
                    (GST_BUFFER_DATA next) s2
              | None => fill_loop fuel' channels None i1 sz data s2
              end
            else fill_loop fuel' channels buf i1 sz data s1
          else Done s
      end
  end.

(** Iterations granted to [fill_loop]: with a positive frame width every
    iteration consumes a sample of the queue or a buffer of it; with a
    negative one [i] walks down to [INT_MIN]. *)
Definition queued_samples (q : list GstBuffer) : nat :=
  foldr (fun buf n => S (length (GST_BUFFER_DATA buf)) + n)%nat O q.

Definition scope_fuel (channels i : Z) (q : list GstBuffer) : nat :=
  if 0 <? channels then S (S (queued_samples q))
  else S (S (Z.to_nat (i - INT_MIN))).

(** [GstEngine::UpdateScope] *)
Definition UpdateScope (s : GstEngine) : outcome GstEngine :=
  let '(pruned_pos, s) := PruneScope s in
  let pos := to_quint64 pruned_pos in
  match g_queue_peek_head (delayq_ s) with
  | None => Done s
  | Some buf =>
      let stime := GST_BUFFER_TIMESTAMP buf in
      let dur := GST_BUFFER_DURATION buf in
      let etime := buffer_etime buf in
      let channels := gst_structure_get_int (caps_channels buf) 2 in
      if 2 <? channels then Done s
      else if (pos <=? stime) || (etime <=? pos) then Done s
      else
        let sz := buffer_sz buf in
        frames ← int_div sz channels;
        off ← scope_offset channels pos stime dur frames;
        if sz <=? off then Done s
        else
          fill_loop (scope_fuel channels off (delayq_ s)) channels (Some buf)
            off sz (GST_BUFFER_DATA buf) s
  end.

(** The copy loop of [scope],
    [for (int i = 0; i < SCOPESIZE; i++) m_scope[i] = current_scope_[i];]
    with [n] the number of indices still to copy. *)
Fixpoint copy_scope (n i : nat) (src dst : list Z) : list Z :=
  match n with
  | O => dst
  | S n' => copy_scope n' (S i) src (<[i := src !!! i]> dst)
  end.

(** [GstEngine::scope]: the returned ready buffer and the new state. *)
Definition scope (s : GstEngine) : outcome (list Z * GstEngine) :=
  s1 ← UpdateScope s;
  let s2 :=
    if SCOPESIZE <=? current_sample_ s1 then
      set_current_sample_ 0
        (set_m_scope
           (copy_scope (Z.to_nat SCOPESIZE) 0 (current_scope_ s1) (m_scope s1))
           s1)
    else s1 in
  mret (m_scope s2, s2).

(** The engine right after its constructor: an empty queue, the cursor at 0,
    no pipeline.  The ready buffer is allocated by the base class
    [Engine::Base], which is not among the sources at hand: its initial
    content [ready0] is a parameter (the specification has it all zeros).
    The build array is not initialised, so its content [garbage] is
    arbitrary; [fadeout] is the setting that [ReloadSettings] reads. *)
Definition GstEngine_new (ready0 garbage : list Z) (fadeout : bool)
  : GstEngine :=
  {| delayq_ := [];
     current_sample_ := 0;
     current_scope_ := garbage;
     m_scope := ready0;
     current_pipeline_ := None;
     fadeout_pipeline_ := None;
     fadeout_enabled_ := fadeout |}.

(** The calls that reach the scope state, and their effect on the engine. *)
Inductive call : Type :=
| CallNewBuffer (buf : GstBuffer)
| CallScope
| CallTimerEvent
| CallLoad (created : option GstEnginePipeline)
| CallPlay (offset : Z)
| CallStop
| CallSeek (ms : Z)
| CallHandlePipelineError
| CallEndOfStreamReached
| CallFadeoutFinished
| CallReloadSettings (fadeout : bool)
| PipelineProgress (p : GstEnginePipeline).

Definition run_call (c : call) (s : GstEngine) : outcome GstEngine :=
  match c with
  | CallNewBuffer buf => Done (NewBuffer buf s)
  | CallScope => r ← scope s; mret (snd r)
  | CallTimerEvent => Done (timerEvent s)
  | CallLoad created => Done (snd (load created s))
  | CallPlay offset => r ← play offset s; mret (snd r)
  | CallStop => Done (stop s)
  | CallSeek ms => Done (seek ms s)
  | CallHandlePipelineError => Done (HandlePipelineError s)
  | CallEndOfStreamReached => Done (EndOfStreamReached s)
  | CallFadeoutFinished => Done (FadeoutFinished s)
  | CallReloadSettings fadeout => Done (set_fadeout_enabled_ fadeout s)
  | PipelineProgress p => Done (pipeline_progress p s)
  end.

Fixpoint run_calls (cs : list call) (s : GstEngine) : outcome GstEngine :=
  match cs with
  | [] => Done s
  | c :: rest => s1 ← run_call c s; run_calls rest s1
  end.

(** ** Invariants and relations used in the statements *)

(** [fills s r]: [r] is [s] after some samples were appended to the build
    buffer, at the indices from the cursor of [s] up to the cursor of [r];
    nothing else of the engine, the queue apart, has changed. *)
Definition fills (s r : GstEngine) : Prop :=
  m_scope r = m_scope s /\
  current_pipeline_ r = current_pipeline_ s /\
  fadeout_pipeline_ r = fadeout_pipeline_ s /\
  fadeout_enabled_ r = fadeout_enabled_ s /\
  length (current_scope_ r) = length (current_scope_ s) /\
  current_sample_ s <= current_sample_ r <= Z.max (current_sample_ s) SCOPESIZE /\
  forall k : nat,
    Z.of_nat k < current_sample_ s \/ current_sample_ r <= Z.of_nat k ->
    current_scope_ r !! k = current_scope_ s !! k.

(** The cursor invariant of the build buffer. *)
Definition cursor_inv (s : GstEngine) : Prop :=
  0 <= current_sample_ s <= SCOPESIZE.

(** The cursor invariant together with the sizes of the two arrays. *)
Definition scope_wf (s : GstEngine) : Prop :=
  length (current_scope_ s) = Z.to_nat SCOPESIZE /\
  length (m_scope s) = Z.to_nat SCOPESIZE /\
  cursor_inv s.


End Scope.

#[global] Instance call_eq_scope_dec (c : call) : Decision (c = CallScope).
Proof. destruct c; first [left; reflexivity | right; discriminate]. Defined.

(** ** Further definitions: what the statements about runs speak of *)

(** The buffers that a run of calls delivers, in the order of arrival. *)
Fixpoint arrivals (calls : list call) : list GstBuffer :=
  match calls with
  | [] => []
  | CallNewBuffer buf :: rest => buf :: arrivals rest
  | _ :: rest => arrivals rest
  end.

(** [played_by_pipeline calls s]: in the run of [calls] from [s] every buffer
    arrives while the engine has a current pipeline ([NewBuffer] is the slot
    of the signal [BufferFound] of the pipeline that [CreatePipeline]
    connected; [stop] disconnects the pipeline that it fades out). *)
Fixpoint played_by_pipeline (SCOPESIZE : Z) (calls : list call) (s : GstEngine)
  : Prop :=
  match calls with
  | [] => True
  | c :: rest =>
      match c with
      | CallNewBuffer _ => is_Some (current_pipeline_ s)
      | _ => True
      end /\
      match run_call SCOPESIZE c s with
      | Done s1 => played_by_pipeline SCOPESIZE rest s1
      | Fault _ => True
      end
  end.

(** Queued chunks belong to a pipeline: without one the queue is empty. *)
Definition queue_has_owner (s : GstEngine) : Prop :=
  current_pipeline_ s = None -> delayq_ s = [].

(** The samples that lie ahead of index [i] of the head chunk: the rest of
    that chunk, then the chunks queued behind it. *)
Definition samples_ahead (i : Z) (q : list GstBuffer) : list Z :=
  match q with
  | [] => []
  | buf :: rest =>
      drop (Z.to_nat i) (GST_BUFFER_DATA buf) ++ concat (GST_BUFFER_DATA <$> rest)
  end.

(** A chunk of whole stereo frames: an even, positive number of samples that
    an [int] can count. *)
Definition stereo_frames (buf : GstBuffer) : Prop :=
  Z.even (buffer_sz buf) = true /\ 2 <= buffer_sz buf <= INT_MAX.

(** [streamed SCOPESIZE s u stream]: from [s] to [u] the build buffer took
    the samples of [stream], in order, from the cursor of [s] on, as many as
    it had room for. *)
Definition streamed (SCOPESIZE : Z) (s u : GstEngine) (stream : list Z) : Prop :=
  current_sample_ u =
    Z.min SCOPESIZE (current_sample_ s + Z.of_nat (length stream)) /\
  forall j : nat,
    current_sample_ s + Z.of_nat j < current_sample_ u ->
    current_scope_ u !! (Z.to_nat (current_sample_ s) + j)%nat = stream !! j.

(** [stereo_head s buf rest off]: after the pruning the queue of [s] is
    [buf :: rest], all of whole stereo frames; [buf] has two channels and is
    being played; the offset that the code computes is [off], an even index
    inside [buf]. *)
Definition stereo_head (s : GstEngine) (buf : GstBuffer) (rest : list GstBuffer)
    (off : Z) : Prop :=
  delayq_ (pruned s) = buf :: rest /\
  Forall stereo_frames (buf :: rest) /\
  gst_structure_get_int (caps_channels buf) 2 = 2 /\
  GST_BUFFER_TIMESTAMP buf < to_quint64 (fst (PruneScope s)) < buffer_etime buf /\
  scope_offset 2 (to_quint64 (fst (PruneScope s))) (GST_BUFFER_TIMESTAMP buf)
    (GST_BUFFER_DURATION buf) (Z.quot (buffer_sz buf) 2) = Done off /\
  0 <= off < buffer_sz buf /\
  Z.even off = true.

(** ** Runs followed up to the first undefined operation *)

Section Upto.

Variable SCOPESIZE : Z.

(** The inner loop of [UpdateScope] again, keeping the engine as it is when
    the loop ends or when an undefined operation stops it. *)
Fixpoint fill_frame_upto (n : nat) (data : list Z) (i j : Z) (s : GstEngine)
  : GstEngine * option fault :=
  match n with
  | O => (s, None)
  | S n' =>
      if current_sample_ s <? SCOPESIZE then
        match sample_load data (i + j) with
        | Fault f => (s, Some f)
        | Done v =>
            match scope_store SCOPESIZE (current_scope_ s) (current_sample_ s) v with
            | Fault f => (s, Some f)
            | Done a =>
                fill_frame_upto n' data i (j + 1)
                  (set_current_sample_ (current_sample_ s + 1)
                     (set_current_scope_ a s))
            end
        end
      else (s, None)
  end.

(** The outer loop, likewise. *)
Fixpoint fill_loop_upto (fuel : nat) (channels : Z) (buf : option GstBuffer)
    (i sz : Z) (data : list Z) (s : GstEngine) : GstEngine * option fault :=
  match fuel with
  | O => (s, Some OutOfFuel)
  | S fuel' =>
      match buf with
      | None => (s, None)
      | Some _ =>
          if (current_sample_ s <? SCOPESIZE) && (i <? sz) then
            match fill_frame_upto (Z.to_nat channels) data i 0 s with
            | (s1, Some f) => (s1, Some f)
            | (s1, None) =>
                match int_add i channels with
                | Fault f => (s1, Some f)
                | Done i1 =>
                    if sz - 1 <=? i1 then
                      let s2 := set_delayq_ (g_queue_pop_head (delayq_ s1)) s1 in
                      match g_queue_peek_head (delayq_ s2) with
                      | Some next =>
                          fill_loop_upto fuel' channels (Some next) 0
                            (buffer_sz next) (GST_BUFFER_DATA next) s2
                      | None => fill_loop_upto fuel' channels None i1 sz data s2
                      end
                    else fill_loop_upto fuel' channels buf i1 sz data s1
                end
            end
          else (s, None)
      end
  end.

(** [GstEngine::UpdateScope], likewise: the engine at the return, or at the
    undefined operation, with the fault that stopped the run. *)
Definition UpdateScope_upto (s : GstEngine) : GstEngine * option fault :=
  let '(pruned_pos, s) := PruneScope s in
  let pos := to_quint64 pruned_pos in
  match g_queue_peek_head (delayq_ s) with
  | None => (s, None)
  | Some buf =>
      let stime := GST_BUFFER_TIMESTAMP buf in
      let dur := GST_BUFFER_DURATION buf in
      let etime := buffer_etime buf in
      let channels := gst_structure_get_int (caps_channels buf) 2 in
      if 2 <? channels then (s, None)
      else if (pos <=? stime) || (etime <=? pos) then (s, None)
      else
        let sz := buffer_sz buf in
        match int_div sz channels with
        | Fault f => (s, Some f)
        | Done frames =>
            match scope_offset channels pos stime dur frames with
            | Fault f => (s, Some f)
            | Done off =>
                if sz <=? off then (s, None)
                else
                  fill_loop_upto (scope_fuel channels off (delayq_ s)) channels
                    (Some buf) off sz (GST_BUFFER_DATA buf) s
            end
        end
  end.

End Upto.

(** The outcome of a run that was followed up to its end. *)
Definition outcome_of (r : GstEngine * option fault) : outcome GstEngine :=
  match snd r with
  | None => Done (fst r)
  | Some f => Fault f
  end.

(** [sourced P L c0 s]: the build buffer of [s] has [L] entries, and those
    from index [c0] up to the cursor hold values that satisfy [P]. *)
Definition sourced (P : Z -> Prop) (L : nat) (c0 : Z) (s : GstEngine) : Prop :=
  length (current_scope_ s) = L /\
  forall k : nat,
    c0 <= Z.of_nat k < current_sample_ s -> (k < L)%nat ->
    exists v, P v /\ current_scope_ s !! k = Some v.

(** [same_fill c0 s t]: [s] and [t] are at the same point of the same fill:
    they have the same queue, pipeline and cursor, build buffers of the same
    size, and the same samples in them from index [c0] up to the cursor. *)
Definition same_fill (c0 : Z) (s t : GstEngine) : Prop :=
  delayq_ s = delayq_ t /\
  current_pipeline_ s = current_pipeline_ t /\
  current_sample_ s = current_sample_ t /\
  length (current_scope_ s) = length (current_scope_ t) /\
  forall k : nat,
    c0 <= Z.of_nat k < current_sample_ s ->
    current_scope_ s !! k = current_scope_ t !! k.

(** ** Position, length and state of the engine *)

(** Conversion to [uint] (32 bits). *)
Definition to_uint (x : Z) : Z := x mod 2 ^ 32.

(** [uint(t / GST_MSECOND)] for a [gint64] time [t]: the division truncates
    towards zero. *)
Definition msec_of (t : Z) : Z := to_uint (Z.quot t GST_MSECOND).

(** [GstEngine::position] *)
Definition engine_position (s : GstEngine) : Z :=
  match current_pipeline_ s with
  | None => 0
  | Some pipeline => msec_of (position pipeline)
  end.

(** [GstEngine::length], for pipelines whose [length()] is [pipeline_length]. *)
Definition engine_length (pipeline_length : GstEnginePipeline -> Z)
    (s : GstEngine) : Z :=
  match current_pipeline_ s with
  | None => 0
  | Some pipeline => msec_of (pipeline_length pipeline)
  end.

Inductive GstState : Set :=
| GST_STATE_VOID_PENDING
| GST_STATE_NULL
| GST_STATE_READY
| GST_STATE_PAUSED
| GST_STATE_PLAYING.

(** [Engine::State] *)
Inductive Engine_State : Set :=
| Engine_Empty
| Engine_Idle
| Engine_Playing
| Engine_Paused.

(** The engine together with the one member of its base class that [state]
    and [stop] use: whether [m_url] is empty. *)
Record Playback : Type := {
  engine : GstEngine;
  m_url_isEmpty : bool
}.

(** [GstEngine::state], for pipelines whose [state()] is [pipeline_state]. *)
Definition state (pipeline_state : GstEnginePipeline -> GstState)
    (e : Playback) : Engine_State :=
  match current_pipeline_ (engine e) with
  | None => if m_url_isEmpty e then Engine_Empty else Engine_Idle
  | Some pipeline =>
      match pipeline_state pipeline with
      | GST_STATE_NULL => Engine_Empty
      | GST_STATE_READY => Engine_Idle
      | GST_STATE_PLAYING => Engine_Playing
      | GST_STATE_PAUSED => Engine_Paused
      | GST_STATE_VOID_PENDING => Engine_Empty
      end
  end.

(** [GstEngine::stop] with its first statement, [m_url = QUrl()]. *)
Definition stop_playback (e : Playback) : Playback :=
  {| engine := stop (engine e); m_url_isEmpty := true |}.

(** ** Strings *)

(** [s] starts with [prefix]. *)
Fixpoint startsWith (s prefix : string) : bool :=
  match prefix, s with
  | EmptyString, _ => true
  | String a prefix', String b s' =>
      if Ascii.eqb a b then startsWith s' prefix' else false
  | String _ _, EmptyString => false
  end.

(** [QString::endsWith]: some tail of [s] is [suffix]. *)
Fixpoint endsWith (s suffix : string) : bool :=
  String.eqb s suffix ||
  match s with
  | EmptyString => false
  | String _ s' => endsWith s' suffix
  end.

(** [QString::contains], and [g_strrstr(s, needle) != NULL]: [needle] occurs
    in [s]. *)
Fixpoint contains (s needle : string) : bool :=
  startsWith s needle ||
  match s with
  | EmptyString => false
  | String _ s' => contains s' needle
  end.

(** Lower case of the letters A to Z; the other characters stay. *)
Definition ascii_toLower (c : Ascii.ascii) : Ascii.ascii :=
  let n := Ascii.nat_of_ascii c in
  if (65 <=? n)%nat && (n <=? 90)%nat then Ascii.ascii_of_nat (n + 32) else c.

Fixpoint latin_toLower (s : string) : string :=
  match s with
  | EmptyString => EmptyString
  | String c s' => String (ascii_toLower c) (latin_toLower s')
  end.

(** ** [canDecode] *)

(** The two signals of the [decodebin] element that [canDecode] connects; a
    new pad comes with the names of the structures of its caps. *)
Inductive decodebin_signal : Type :=
| new_decoded_pad (caps : list string)
| no_more_pads.

(** The two flags of the engine that the callbacks set. *)
Record can_decode_flags : Set := {
  can_decode_success_ : bool;
  can_decode_last_ : bool
}.

(** [GstEngine::CanDecodeNewPadCallback] *)
Definition CanDecodeNewPadCallback (caps : list string) (f : can_decode_flags)
  : can_decode_flags :=
  match caps with
  | str :: _ =>
      if contains str "audio"
      then {| can_decode_success_ := true; can_decode_last_ := can_decode_last_ f |}
      else f
  | [] => f
  end.

(** [GstEngine::CanDecodeLastCallback] *)
Definition CanDecodeLastCallback (f : can_decode_flags) : can_decode_flags :=
  {| can_decode_success_ := can_decode_success_ f; can_decode_last_ := true |}.

Definition deliver_signal (f : can_decode_flags) (sig : decodebin_signal)
  : can_decode_flags :=
  match sig with
  | new_decoded_pad caps => CanDecodeNewPadCallback caps f
  | no_more_pads => CanDecodeLastCallback f
  end.

(** The callbacks run for a batch of signals, in their order. *)
Definition deliver (signals : list decodebin_signal) (f : can_decode_flags)
  : can_decode_flags := foldl deliver_signal f signals.

(** A pad whose first caps structure has "audio" in its name. *)
Definition audio_pad (sig : decodebin_signal) : Prop :=
  exists str rest,
    sig = new_decoded_pad (str :: rest) /\ contains str "audio" = true.

(** The wait loop of [canDecode],
    [while (!can_decode_success_ && !can_decode_last_ && count < 100)
       { count++; usleep(1000); }].
    [signals k] are the signals that the streaming threads of the pipeline
    deliver before the test that the loop makes with [count = k], each test
    reading the flags as the callbacks left them; [n] is [100 - count]. *)
Fixpoint can_decode_wait (n : nat) (signals : nat -> list decodebin_signal)
    (count : nat) (f : can_decode_flags) : nat * can_decode_flags :=
  let f := deliver (signals count) f in
  if negb (can_decode_success_ f) && negb (can_decode_last_ f) then
    match n with
    | O => (count, f)
    | S n' => can_decode_wait n' signals (S count) f
    end
  else (count, f).

Section CanDecode.

(** [QString::toLower] *)
Variable toLower : string -> string.

(** The test on the path of the url that [canDecode] starts with. *)
Definition is_video (path : string) : bool :=
  endsWith (toLower path) ".mov" ||
  endsWith (toLower path) ".avi" ||
  endsWith (toLower path) ".wmv".

(** [GstEngine::canDecode] on the path of a url.  The signals that arrive
    after the last test of the loop, while the pipeline is being stopped,
    are [signals (count + 1)]; the return statement reads the flag after
    them. *)
Definition canDecode (path : string) (signals : nat -> list decodebin_signal)
  : bool :=
  if is_video path then false
  else
    let start := {| can_decode_success_ := false; can_decode_last_ := false |} in
    let '(count, f) := can_decode_wait 100 signals 0 start in
    can_decode_success_ (deliver (signals (S count)) f).

End CanDecode.

(** ** [GetPluginList] *)

(** A [GstElementFactory] of the registry, as [GetPluginList] reads it. *)
Record GstElementFactory : Set := {
  details_klass : string;
  details_longname : string;
  details_description : string;
  details_author : string;
  GST_PLUGIN_FEATURE_NAME : string
}.

Record PluginDetails : Set := {
  name : string;
  long_name : string;
  description : string;
  author : string
}.

(** The [PluginDetails] that [GetPluginList] fills in for a factory. *)
Definition details_of (factory : GstElementFactory) : PluginDetails :=
  {| name := GST_PLUGIN_FEATURE_NAME factory;
     long_name := details_longname factory;
     description := details_description factory;
     author := details_author factory |}.

(** The loop of [GetPluginList] over the [GList] of features: the details it
    collected, and the list pointer it is left with. *)
Fixpoint plugin_loop (features : list GstElementFactory) (classname : string)
    (ret : list PluginDetails) : list PluginDetails * list GstElementFactory :=
  match features with
  | [] => (ret, features)
  | factory :: next =>
      let ret :=
        if contains (details_klass factory) classname
        then ret ++ [details_of factory]
        else ret in
      plugin_loop next classname ret
  end.

(** [GstEngine::GetPluginList] on the feature list of the registry: the
    returned details, and the list that is handed to
    [gst_plugin_feature_list_free]. *)
Definition GetPluginList (registry : list GstElementFactory) (classname : string)
  : list PluginDetails * list GstElementFactory :=
  plugin_loop registry classname [].


(** ** Sample data for the examples *)

Definition stereo (stime dur : Z) (data : list Z) : GstBuffer :=
  {| GST_BUFFER_TIMESTAMP := stime; GST_BUFFER_DURATION := dur;
     GST_BUFFER_DATA := data; caps_channels := Some 2 |}.

Definition with_channels (n : Z) (buf : GstBuffer) : GstBuffer :=
  {| GST_BUFFER_TIMESTAMP := GST_BUFFER_TIMESTAMP buf;
     GST_BUFFER_DURATION := GST_BUFFER_DURATION buf;
     GST_BUFFER_DATA := GST_BUFFER_DATA buf; caps_channels := Some n |}.

(** Samples [from], [from + 1], ..., [n] of them. *)
Definition ramp (from : Z) (n : nat) : list Z :=
  (fun k => from + Z.of_nat k) <$> seq 0 n.

(** A pipeline at position [pos] that accepts every request. *)
Definition pipeline_at (pos : Z) : GstEnginePipeline :=
  {| position := pos; Seek := fun _ => true; SetState_PLAYING := true |}.

(** An engine with an 8-sample scope, playing at [pos], the build buffer
    holding [cursor] samples. *)
Definition engine8 (q : list GstBuffer) (pos cursor : Z) : GstEngine :=
  {| delayq_ := q;
     current_sample_ := cursor;
     current_scope_ := replicate 8 0;
     m_scope := replicate 8 0;
     current_pipeline_ := Some (pipeline_at pos);
     fadeout_pipeline_ := None;
     fadeout_enabled_ := true |}.

Definition chunkA : GstBuffer := stereo 0 100 (ramp 0 100).
Definition chunkB : GstBuffer := stereo 0 0 [].
Definition chunkC : GstBuffer := stereo 10 50 (ramp 100 50).

(** An engine that lost its pipeline while [chunkA], long played, is queued. *)
Definition orphaned : GstEngine :=
  set_current_pipeline_ None (engine8 [chunkA] 500 3).

(** Two overlapping chunks: the second one ends at 15, before the first. *)
Definition overlapping : list GstBuffer :=
  [stereo 0 100 (ramp 0 4); stereo 5 10 (ramp 4 4)].

(** Two chunks in order of their end times, 60 and 100. *)
Definition in_order : list GstBuffer := [chunkC; chunkA].

(** A head chunk without a single frame over a time span that contains the
    position. *)
Definition no_frames : GstBuffer := stereo 0 100 [].

(** A mono chunk of four samples. *)
Definition mono4 : GstBuffer := with_channels 1 (stereo 0 100 [1; 2; 3; 4]).

(** A six-channel chunk queued behind a short stereo chunk. *)
Definition surround : GstBuffer :=
  with_channels 6 (stereo 100 100 [11; 12; 13; 14; 15; 16]).

Definition stereo_then_surround : list GstBuffer :=
  [stereo 0 100 [1; 2; 3; 4]; surround].

(** The calls that take a new engine to a build buffer of two samples (those
    of a first short chunk) with [chunkA] queued next. *)
Definition two_samples_in : list call :=
  [CallLoad (Some (pipeline_at 40)); CallPlay 0;
   CallNewBuffer (stereo 0 100 [1; 2]); CallScope; CallNewBuffer chunkA].

(** A new engine with an 8-sample scope, both buffers zeroed. *)
Definition fresh_engine8 : GstEngine :=
  GstEngine_new (replicate 8 0) (replicate 8 0) true.

(** The state reached by [two_samples_in] and one more call of [scope],
    which completes a fill. *)
Definition filled_once : GstEngine :=
  Eval vm_compute in
    match run_calls 8 (two_samples_in ++ [CallScope]) fresh_engine8 with
    | Done s => s
    | Fault _ => fresh_engine8
    end.

(** Two short stereo chunks, one right after the other. *)
Definition two_chunks : list GstBuffer :=
  [stereo 0 100 [1; 2; 3; 4]; stereo 100 100 [5; 6; 7; 8; 9; 10]].

(** The engine after a first call of [scope] with [chunkA] queued, the
    position at 40 and no fill pending. *)
Definition scoped_once : GstEngine :=
  Eval vm_compute in
    match scope 8 (engine8 [chunkA] 40 0) with
    | Done (_, s) => s
    | Fault _ => engine8 [] 40 0
    end.



(** A track is loaded, a chunk arrives, the stream ends. *)
Definition short_track : list call :=
  [CallLoad (Some (pipeline_at 40)); CallNewBuffer chunkC; CallEndOfStreamReached].

Definition after_short_track : GstEngine :=
  Eval vm_compute in
    match run_calls 8 short_track fresh_engine8 with
    | Done s => s
    | Fault _ => fresh_engine8
    end.


(** * Properties *)

(** ** The outcome monad *)

Lemma bind_Done {A B : Type} (m : outcome A) (k : A -> outcome B) (b : B) :
  m ≫= k = Done b -> exists a, m = Done a /\ k a = Done b.
Proof.
  destruct m as [a|f]; cbn; intros H; [eauto | discriminate].
Qed.

Lemma bind_Fault {A B : Type} (m : outcome A) (k : A -> outcome B) (f : fault) :
  m ≫= k = Fault f -> m = Fault f \/ exists a, m = Done a /\ k a = Fault f.
Proof.
  destruct m as [a|g]; cbn; intros H; [right; eauto | left; congruence].
Qed.

(** ** Machine integers *)

Lemma to_int_range (x : Z) : INT_MIN <= to_int x <= INT_MAX.
Proof.
  unfold to_int, INT_MIN, INT_MAX.
  pose proof (Z.mod_pos_bound (x + 2 ^ 31) (2 ^ 32) ltac:(lia)). lia.
Qed.

Lemma to_qint64_small (x : Z) : 0 <= x < 2 ^ 63 -> to_qint64 (to_quint64 x) = x.
Proof.
  intros Hx. unfold to_qint64, to_quint64.
  rewrite (Z.mod_small x) by lia. rewrite Z.mod_small by lia. lia.
Qed.

Lemma int_add_Done (a b c : Z) :
  int_add a b = Done c -> c = a + b /\ INT_MIN <= c <= INT_MAX.
Proof.
  unfold int_add.
  destruct (INT_MIN <=? a + b) eqn:E1; destruct (a + b <=? INT_MAX) eqn:E2;
    cbn; intros H; inversion H; subst. lia.
Qed.

Lemma int_add_Fault (a b : Z) (f : fault) :
  int_add a b = Fault f -> f = SignedOverflow.
Proof.
  unfold int_add. destruct (_ && _); intros H; inversion H; reflexivity.
Qed.

(** ** The queue *)

Lemma clear_loop_nil (q : list GstBuffer) : clear_loop q = [].
Proof. induction q as [|buf rest IH]; [reflexivity | exact IH]. Qed.

Lemma buffer_sz_length (buf : GstBuffer) :
  buffer_sz buf = Z.of_nat (length (GST_BUFFER_DATA buf)).
Proof.
  unfold buffer_sz, GST_BUFFER_SIZE, sizeof_sampletype.
  rewrite Z.mul_comm. apply Z.div_mul. lia.
Qed.

Lemma set_delayq__id (s : GstEngine) : set_delayq_ (delayq_ s) s = s.
Proof. destruct s; reflexivity. Qed.

(** Pruning keeps a suffix of the queue, releases only buffers whose end lies
    before the position, and stops at a head that does not. *)
Lemma prune_loop_suffix (pos : Z) (q : list GstBuffer) :
  exists released, q = released ++ prune_loop pos q /\
    Forall (fun buf => to_qint64 (buffer_etime buf) < pos) released.
Proof.
  induction q as [|buf rest IH]; cbn.
  - exists []. split; [reflexivity | constructor].
  - destruct (to_qint64 (buffer_etime buf) <? pos) eqn:E.
    + destruct IH as (released & Hq & Hall).
      exists (buf :: released). split.
      * cbn. congruence.
      * constructor; [lia | exact Hall].
    + exists []. split; [reflexivity | constructor].
Qed.

Lemma prune_loop_head (pos : Z) (q : list GstBuffer) :
  match prune_loop pos q with
  | [] => True
  | buf :: _ => pos <= to_qint64 (buffer_etime buf)
  end.
Proof.
  induction q as [|buf rest IH]; cbn; [exact I |].
  destruct (to_qint64 (buffer_etime buf) <? pos) eqn:E; [exact IH | lia].
Qed.

Lemma ends_in_order_tail (buf : GstBuffer) (rest : list GstBuffer) :
  ends_in_order (buf :: rest) -> ends_in_order rest.
Proof.
  intros Hord i j a b Hij Ha Hb. apply (Hord (S i) (S j)); [lia | exact Ha | exact Hb].
Qed.

(** On a queue in order of end times the head speaks for all. *)
Lemma prune_loop_all (pos : Z) (q : list GstBuffer) :
  ends_in_order q ->
  Forall (fun buf => pos <= to_qint64 (buffer_etime buf)) (prune_loop pos q).
Proof.
  induction q as [|buf rest IH]; cbn; intros Hord; [constructor |].
  destruct (to_qint64 (buffer_etime buf) <? pos) eqn:E.
  - apply IH. eapply ends_in_order_tail, Hord.
  - apply Z.ltb_ge in E. apply Forall_lookup. intros j b Hb.
    pose proof (Hord 0%nat j buf b ltac:(lia) eq_refl Hb). lia.
Qed.

Lemma prune_loop_idem (pos : Z) (q : list GstBuffer) :
  prune_loop pos (prune_loop pos q) = prune_loop pos q.
Proof.
  induction q as [|buf rest IH]; cbn; [reflexivity |].
  destruct (to_qint64 (buffer_etime buf) <? pos) eqn:E; [exact IH |].
  cbn. rewrite E. reflexivity.
Qed.

(** What [PruneScope] leaves alone. *)
Lemma PruneScope_frame (s : GstEngine) :
  let s' := snd (PruneScope s) in
  current_sample_ s' = current_sample_ s /\
  current_scope_ s' = current_scope_ s /\
  m_scope s' = m_scope s /\
  current_pipeline_ s' = current_pipeline_ s /\
  fadeout_pipeline_ s' = fadeout_pipeline_ s /\
  fadeout_enabled_ s' = fadeout_enabled_ s.
Proof.
  unfold PruneScope. destruct (current_pipeline_ s) eqn:E; cbn; rewrite ?E; tauto.
Qed.

(** ** The copy loops *)

Section ScopeProperties.

Variable SCOPESIZE : Z.

Lemma fills_refl (s : GstEngine) : fills SCOPESIZE s s.
Proof. unfold fills. repeat split; first [lia | reflexivity]. Qed.

Lemma fills_trans (s r t : GstEngine) :
  fills SCOPESIZE s r -> fills SCOPESIZE r t -> fills SCOPESIZE s t.
Proof.
  unfold fills. intros (?&?&?&?&?&?&Hsr) (?&?&?&?&?&?&Hrt).
  repeat split; try congruence; try lia.
  intros k Hk. rewrite Hrt by lia. apply Hsr. lia.
Qed.

Lemma fills_pop (s r : GstEngine) (q : list GstBuffer) :
  fills SCOPESIZE s r -> fills SCOPESIZE s (set_delayq_ q r).
Proof. unfold fills. cbn. tauto. Qed.

Lemma scope_store_Done (a b : list Z) (k v : Z) :
  scope_store SCOPESIZE a k v = Done b ->
  0 <= k < SCOPESIZE /\ b = <[Z.to_nat k := v]> a.
Proof.
  unfold scope_store.
  destruct (0 <=? k) eqn:E1; destruct (k <? SCOPESIZE) eqn:E2; cbn;
    intros H; inversion H; subst. split; [lia | reflexivity].
Qed.

Lemma scope_store_Fault (a : list Z) (k v : Z) (f : fault) :
  scope_store SCOPESIZE a k v = Fault f ->
  f = WriteOutOfBounds /\ (k < 0 \/ SCOPESIZE <= k).
Proof.
  unfold scope_store.
  destruct (0 <=? k) eqn:E1; destruct (k <? SCOPESIZE) eqn:E2; cbn;
    intros H; inversion H; subst; split; try reflexivity; lia.
Qed.

Lemma sample_load_Fault (data : list Z) (k : Z) (f : fault) :
  sample_load data k = Fault f -> f = ReadOutOfBounds.
Proof.
  unfold sample_load. destruct (k <? 0); [congruence |].
  destruct (data !! Z.to_nat k); congruence.
Qed.

Lemma sample_load_Done (data : list Z) (k v : Z) :
  sample_load data k = Done v -> 0 <= k /\ data !! Z.to_nat k = Some v.
Proof.
  unfold sample_load. destruct (k <? 0) eqn:E; [congruence |].
  destruct (data !! Z.to_nat k); intros H; inversion H; subst.
  split; [lia | reflexivity].
Qed.

Lemma fill_frame_Done (n : nat) (data : list Z) (i j : Z) (s r : GstEngine) :
  fill_frame SCOPESIZE n data i j s = Done r ->
  fills SCOPESIZE s r /\ delayq_ r = delayq_ s.
Proof.
  revert j s. induction n as [|n IH]; intros j s; cbn.
  - intros H; inversion H; subst. split; [apply fills_refl | reflexivity].
  - destruct (current_sample_ s <? SCOPESIZE) eqn:E.
    + intros H.
      apply bind_Done in H as (v & _ & H).
      apply bind_Done in H as (a & Ha & H).
      apply scope_store_Done in Ha as (Hk & ->).
      apply IH in H as (Hf & Hq). split; [| exact Hq].
      refine (fills_trans _ _ _ _ Hf).
      unfold fills; cbn. rewrite length_insert. repeat split; try lia.
      intros k' Hk'. apply list_lookup_insert_ne. lia.
    + intros H; inversion H; subst. split; [apply fills_refl | reflexivity].
Qed.

(** A frame copy can only fail on a read outside the buffer's data, or, when
    the cursor is negative, on the write. *)
Lemma fill_frame_Fault (n : nat) (data : list Z) (i j : Z) (s : GstEngine)
    (f : fault) :
  fill_frame SCOPESIZE n data i j s = Fault f ->
  f = ReadOutOfBounds \/ (f = WriteOutOfBounds /\ current_sample_ s < 0).
Proof.
  revert j s. induction n as [|n IH]; intros j s; cbn; [congruence |].
  destruct (current_sample_ s <? SCOPESIZE) eqn:E; [| congruence].
  intros H. apply bind_Fault in H as [H | (v & _ & H)].
  { left. eapply sample_load_Fault, H. }
  apply bind_Fault in H as [H | (a & Ha & H)].
  { apply scope_store_Fault in H as (-> & Hk). right. split; [reflexivity | lia]. }
  apply scope_store_Done in Ha as (Hk & ->).
  apply IH in H as [-> | (-> & Hc)]; [left; reflexivity |].
  cbn in Hc. lia.
Qed.

(** With a negative start index the first sample read is already outside. *)
Lemma fill_frame_negative_index (n : nat) (data : list Z) (i : Z) (s : GstEngine) :
  i < 0 -> current_sample_ s < SCOPESIZE ->
  fill_frame SCOPESIZE (S n) data i 0 s = Fault ReadOutOfBounds.
Proof.
  intros Hi Hc. cbn.
  destruct (current_sample_ s <? SCOPESIZE) eqn:E; [| lia].
  unfold sample_load. destruct (i + 0 <? 0) eqn:E'; [reflexivity | lia].
Qed.

Lemma fill_loop_Done (fuel : nat) (channels : Z) (buf : option GstBuffer)
    (i sz : Z) (data : list Z) (s r : GstEngine) :
  fill_loop SCOPESIZE fuel channels buf i sz data s = Done r ->
  fills SCOPESIZE s r /\ exists k, delayq_ r = drop k (delayq_ s).
Proof.
  revert buf i sz data s.
  induction fuel as [|fuel IH]; intros buf i sz data s; cbn; [congruence |].
  destruct buf as [b|].
  2:{ intros H; inversion H; subst. split; [apply fills_refl | by exists 0%nat]. }
  destruct ((current_sample_ s <? SCOPESIZE) && (i <? sz)) eqn:E.
  2:{ intros H; inversion H; subst. split; [apply fills_refl | by exists 0%nat]. }
  intros H.
  apply bind_Done in H as (s1 & Hs1 & H).
  apply bind_Done in H as (i1 & _ & H).
  apply fill_frame_Done in Hs1 as (Hf1 & Hq1).
  destruct (sz - 1 <=? i1).
  - assert (Hrec : forall b' i' sz' data',
               fill_loop SCOPESIZE fuel channels b' i' sz' data'
                 (set_delayq_ (g_queue_pop_head (delayq_ s1)) s1) = Done r ->
               fills SCOPESIZE s r /\ exists k, delayq_ r = drop k (delayq_ s)).
    { intros b' i' sz' data' Hr. apply IH in Hr as (Hf & k & Hk). split.
      - eapply fills_trans; [apply fills_pop, Hf1 | exact Hf].
      - exists (S k). rewrite Hk. cbn. rewrite Hq1.
        unfold g_queue_pop_head. destruct (delayq_ s); cbn; [by rewrite drop_nil | done]. }
    cbn in H.
    destruct (g_queue_peek_head (g_queue_pop_head (delayq_ s1))); eapply Hrec, H.
  - apply IH in H as (Hf & k & Hk). split.
    + eapply fills_trans; eassumption.
    + exists k. congruence.
Qed.

(** The faults of the outer loop, the fuel apart: a read outside the data, an
    overflow of [i], or a write with a negative cursor. *)
Lemma fill_loop_Fault (fuel : nat) (channels : Z) (buf : option GstBuffer)
    (i sz : Z) (data : list Z) (s : GstEngine) (f : fault) :
  fill_loop SCOPESIZE fuel channels buf i sz data s = Fault f ->
  f = OutOfFuel \/ f = ReadOutOfBounds \/ f = SignedOverflow \/
  (f = WriteOutOfBounds /\ current_sample_ s < 0).
Proof.
  revert buf i sz data s.
  induction fuel as [|fuel IH]; intros buf i sz data s; cbn.
  { intros H; inversion H; auto. }
  destruct buf as [b|]; [| congruence].
  destruct ((current_sample_ s <? SCOPESIZE) && (i <? sz)) eqn:E; [| congruence].
  intros H.
  apply bind_Fault in H as [H | (s1 & Hs1 & H)].
  { apply fill_frame_Fault in H as [-> | (-> & Hc)]; auto. }
  apply fill_frame_Done in Hs1 as ((_&_&_&_&_&Hc1&_) & _).
  apply bind_Fault in H as [H | (i1 & _ & H)].
  { apply int_add_Fault in H as ->. auto. }
  assert (Hrec : forall b' i' sz' data' s',
             current_sample_ s' = current_sample_ s1 ->
             fill_loop SCOPESIZE fuel channels b' i' sz' data' s' = Fault f ->
             f = OutOfFuel \/ f = ReadOutOfBounds \/ f = SignedOverflow \/
             (f = WriteOutOfBounds /\ current_sample_ s < 0)).
  { intros b' i' sz' data' s' Hc Hr.
    apply IH in Hr as [-> | [-> | [-> | (-> & Hneg)]]]; auto.
    right; right; right. split; [reflexivity | lia]. }
  destruct (sz - 1 <=? i1).
  - cbn in H.
    destruct (g_queue_peek_head (g_queue_pop_head (delayq_ s1)));
      eapply Hrec in H; auto.
  - eapply Hrec in H; auto.
Qed.

(** *** Termination of the outer loop *)

Lemma fill_frame_fuel (n : nat) (data : list Z) (i j : Z) (s : GstEngine) :
  fill_frame SCOPESIZE n data i j s <> Fault OutOfFuel.
Proof.
  intros H. apply fill_frame_Fault in H as [H | (H & _)]; discriminate.
Qed.

(** A positive frame width: every iteration moves [i] towards [sz] or takes
    a buffer off the queue. *)
Lemma fill_loop_fuel_up (fuel : nat) (channels : Z) (buf : option GstBuffer)
    (i sz : Z) (data : list Z) (s : GstEngine) :
  0 < channels ->
  (0 < fuel)%nat ->
  (buf <> None -> 0 <= i ->
   (Z.to_nat (sz - i) + queued_samples (tail (delayq_ s)) < fuel)%nat) ->
  fill_loop SCOPESIZE fuel channels buf i sz data s <> Fault OutOfFuel.
Proof.
  intros Hch. revert buf i sz data s.
  induction fuel as [|fuel IH]; intros buf i sz data s Hpos Hfuel; [lia |].
  cbn. destruct buf as [b|]; [| discriminate].
  destruct ((current_sample_ s <? SCOPESIZE) && (i <? sz)) eqn:E; [| discriminate].
  apply andb_prop in E as (Hc & Hi).
  apply Z.ltb_lt in Hc. apply Z.ltb_lt in Hi.
  destruct (Z.lt_ge_cases i 0) as [Hneg | Hnn].
  { destruct (Z.to_nat channels) as [|n] eqn:En; [lia |].
    rewrite fill_frame_negative_index by assumption. discriminate. }
  specialize (Hfuel ltac:(discriminate) Hnn).
  intros H. apply bind_Fault in H as [H | (s1 & Hs1 & H)].
  { eapply fill_frame_fuel, H. }
  apply fill_frame_Done in Hs1 as (_ & Hq1).
  apply bind_Fault in H as [H | (i1 & Hi1 & H)].
  { apply int_add_Fault in H. discriminate. }
  apply int_add_Done in Hi1 as (-> & _).
  destruct (sz - 1 <=? i + channels) eqn:Epop.
  - cbn in H. rewrite Hq1 in H. unfold g_queue_pop_head, g_queue_peek_head in H.
    destruct (delayq_ s) as [|b0 [|next rest]]; cbn in H, Hfuel.
    + revert H. apply IH; [lia | intros Hb; congruence].
    + revert H. apply IH; [lia | intros Hb; congruence].
    + revert H. apply IH; [lia |]. intros _ _. cbn.
      rewrite buffer_sz_length. lia.
  - apply Z.leb_gt in Epop. revert H. apply IH; [lia |].
    intros _ _. rewrite Hq1. lia.
Qed.

(** A negative frame width: nothing is copied or popped and [i] walks down
    until the addition overflows. *)
Lemma fill_loop_fuel_down (fuel : nat) (channels : Z) (buf : option GstBuffer)
    (i sz : Z) (data : list Z) (s : GstEngine) :
  channels < 0 ->
  INT_MIN <= i ->
  (S (Z.to_nat (i - INT_MIN)) < fuel)%nat ->
  fill_loop SCOPESIZE fuel channels buf i sz data s <> Fault OutOfFuel.
Proof.
  intros Hch. revert i s.
  induction fuel as [|fuel IH]; intros i s Hi Hfuel; [lia |].
  cbn. destruct buf as [b|]; [| discriminate].
  destruct ((current_sample_ s <? SCOPESIZE) && (i <? sz)) eqn:E; [| discriminate].
  apply andb_prop in E as (_ & Hsz). apply Z.ltb_lt in Hsz.
  replace (Z.to_nat channels) with O by lia. cbn.
  destruct (int_add i channels) as [i1|f] eqn:Ei1; cbn.
  2:{ apply int_add_Fault in Ei1 as ->. discriminate. }
  apply int_add_Done in Ei1 as (-> & Hr & _).
  destruct (sz - 1 <=? i + channels) eqn:Epop; [apply Z.leb_le in Epop; lia |].
  apply IH; [exact Hr | lia].
Qed.

(** ** [UpdateScope] *)

Lemma UpdateScope_Done (s r : GstEngine) :
  UpdateScope SCOPESIZE s = Done r ->
  fills SCOPESIZE (pruned s) r /\ exists k, delayq_ r = drop k (delayq_ (pruned s)).
Proof.
  unfold UpdateScope, pruned. destruct (PruneScope s) as [pos s0]; cbn.
  assert (Hid : forall t, Done s0 = Done t ->
            fills SCOPESIZE s0 t /\ exists k, delayq_ t = drop k (delayq_ s0)).
  { intros t Ht; inversion Ht; subst. split; [apply fills_refl | by exists 0%nat]. }
  destruct (g_queue_peek_head (delayq_ s0)) as [buf|]; [| apply Hid].
  destruct (2 <? _); [apply Hid |].
  destruct (_ || _); [apply Hid |].
  intros H.
  apply bind_Done in H as (frames & _ & H).
  apply bind_Done in H as (off & _ & H).
  destruct (buffer_sz buf <=? off); [apply Hid, H |].
  eapply fill_loop_Done, H.
Qed.

(** [UpdateScope] always comes to an end. *)
Lemma UpdateScope_terminates (s : GstEngine) :
  UpdateScope SCOPESIZE s <> Fault OutOfFuel.
Proof.
  unfold UpdateScope. destruct (PruneScope s) as [pos s0].
  destruct (g_queue_peek_head (delayq_ s0)) as [buf|] eqn:Ehd; [| discriminate].
  destruct (2 <? _); [discriminate |].
  destruct (_ || _); [discriminate |].
  set (channels := gst_structure_get_int (caps_channels buf) 2).
  intros H.
  apply bind_Fault in H as [H | (frames & Hfr & H)].
  { unfold int_div in H. destruct (channels =? 0); discriminate. }
  apply bind_Fault in H as [H | (off & Hoff & H)].
  { unfold scope_offset in H.
    apply bind_Fault in H as [H | (rate & _ & H)].
    - unfold quint64_div in H. destruct (_ =? 0); discriminate.
    - apply bind_Fault in H as [H | (q & _ & H)]; [| discriminate].
      unfold quint64_div in H. destruct (_ =? 0); discriminate. }
  destruct (buffer_sz buf <=? off) eqn:Eoff; [discriminate |].
  apply Z.leb_gt in Eoff.
  assert (Hr : INT_MIN <= off <= INT_MAX).
  { unfold scope_offset in Hoff.
    apply bind_Done in Hoff as (rate & _ & Hoff).
    apply bind_Done in Hoff as (q & _ & Hoff).
    inversion Hoff; subst. apply to_int_range. }
  revert H. unfold scope_fuel.
  destruct (0 <? channels) eqn:Ech.
  - apply Z.ltb_lt in Ech. apply fill_loop_fuel_up; [exact Ech | lia |].
    intros _ Hnn. unfold g_queue_peek_head in Ehd.
    destruct (delayq_ s0) as [|b0 rest]; [discriminate |].
    cbn in Ehd. inversion Ehd; subst b0. cbn.
    rewrite buffer_sz_length in *. lia.
  - apply Z.ltb_ge in Ech.
    assert (channels <> 0).
    { unfold int_div in Hfr. destruct (channels =? 0) eqn:E0; [discriminate | lia]. }
    apply fill_loop_fuel_down; [lia | lia | lia].
Qed.

(** The faults of [UpdateScope]. *)
Lemma UpdateScope_Fault (s : GstEngine) (f : fault) :
  UpdateScope SCOPESIZE s = Fault f ->
  f = DivisionByZero \/ f = ReadOutOfBounds \/ f = SignedOverflow \/
  (f = WriteOutOfBounds /\ current_sample_ s < 0).
Proof.
  intros H.
  destruct (decide (f = OutOfFuel)) as [-> | Hfuel].
  { exfalso. eapply UpdateScope_terminates, H. }
  revert H. unfold UpdateScope.
  pose proof (PruneScope_frame s) as (Hc & _).
  destruct (PruneScope s) as [pos s0]; cbn in Hc.
  destruct (g_queue_peek_head (delayq_ s0)) as [buf|]; [| discriminate].
  destruct (2 <? _); [discriminate |].
  destruct (_ || _); [discriminate |].
  intros H.
  apply bind_Fault in H as [H | (frames & _ & H)].
  { unfold int_div in H. destruct (_ =? 0); inversion H; auto. }
  apply bind_Fault in H as [H | (off & _ & H)].
  { unfold scope_offset in H.
    apply bind_Fault in H as [H | (rate & _ & H)].
    - unfold quint64_div in H. destruct (_ =? 0); inversion H; auto.
    - apply bind_Fault in H as [H | (q & _ & H)]; [| discriminate].
      unfold quint64_div in H. destruct (_ =? 0); inversion H; auto. }
  destruct (buffer_sz buf <=? off); [discriminate |].
  apply fill_loop_Fault in H as [-> | [-> | [-> | (-> & Hneg)]]]; auto.
  - congruence.
  - right; right; right. split; [reflexivity | lia].
Qed.

End ScopeProperties.

(** ** Pruning *)

(** C10: without a current pipeline [PruneScope] returns 0 and prunes
    nothing: the whole engine state, the delay queue and the build cursor
    included, is left as it was, whatever is queued; the same holds for the
    timer tick, whose only action is that call. *)
Theorem PruneScope_without_pipeline (s : GstEngine) :
  current_pipeline_ s = None ->
  PruneScope s = (0, s) /\ timerEvent s = s.
Proof.
  intros Hnone. unfold timerEvent, PruneScope. rewrite Hnone. split; reflexivity.
Qed.

(** The engine [orphaned] has no pipeline and an elapsed chunk queued. *)
Lemma PruneScope_without_pipeline_witness :
  PruneScope orphaned = (0, orphaned) /\ timerEvent orphaned = orphaned.
Proof. apply (PruneScope_without_pipeline orphaned). reflexivity. Defined.

(** Nor does the extraction release anything then: it takes 0 for the
    position, which lies inside no chunk. *)
Lemma UpdateScope_without_pipeline (SCOPESIZE : Z) (s : GstEngine) :
  current_pipeline_ s = None ->
  (forall buf, g_queue_peek_head (delayq_ s) = Some buf ->
               0 <= GST_BUFFER_TIMESTAMP buf) ->
  UpdateScope SCOPESIZE s = Done s.
Proof.
  intros Hnone Hts. unfold UpdateScope, PruneScope. rewrite Hnone.
  destruct (g_queue_peek_head (delayq_ s)) as [buf|]; [| reflexivity].
  destruct (2 <? _); [reflexivity |].
  specialize (Hts buf eq_refl).
  destruct (to_quint64 0 <=? GST_BUFFER_TIMESTAMP buf) eqn:E; [reflexivity |].
  apply Z.leb_gt in E. change (to_quint64 0) with 0 in E. lia.
Qed.

(** The elapsed chunk is still there after the call. *)
Lemma PruneScope_orphaned_queue :
  delayq_ (snd (PruneScope orphaned)) = [chunkA] /\
  to_qint64 (buffer_etime chunkA) < 500.
Proof. split; vm_compute; reflexivity. Qed.

(** C5, as claimed, fails: at position 50 the head (ending at 100) stops the
    pruning, and the chunk behind it, which ended at 15, stays queued. *)
Lemma PruneScope_keeps_elapsed_chunk_behind_head :
  let s := engine8 overlapping 50 0 in
  let q := delayq_ (snd (PruneScope s)) in
  ~ (q = [] \/
     Forall (fun buf =>
       fst (PruneScope s) <= GST_BUFFER_TIMESTAMP buf + GST_BUFFER_DURATION buf) q).
Proof.
  cbv zeta. vm_compute delayq_. intros [H | H]; [discriminate |].
  apply Forall_cons in H as (_ & H). apply Forall_cons in H as (H & _).
  vm_compute in H. apply H. reflexivity.
Qed.

(** C5 (amended): with a pipeline at position [p], [PruneScope] returns [p]
    and leaves a queue that is empty or whose head chunk has not ended
    before [p], the end time being the 64-bit sum of start and duration read
    as a signed value, which is how the code compares it.  The chunks it
    released are a prefix of the queue and had all ended before [p]; the
    chunks behind the new head were not inspected, and all of them satisfy
    [end_time >= p] when the queue is in order of end times. *)
Theorem PruneScope_head_not_elapsed (p : GstEnginePipeline) (s : GstEngine) :
  let r := PruneScope (set_current_pipeline_ (Some p) s) in
  fst r = position p /\
  match delayq_ (snd r) with
  | [] => True
  | buf :: _ => position p <= to_qint64 (buffer_etime buf)
  end /\
  (exists released,
     delayq_ s = released ++ delayq_ (snd r) /\
     Forall (fun buf => to_qint64 (buffer_etime buf) < position p) released) /\
  (ends_in_order (delayq_ s) ->
   Forall (fun buf => position p <= to_qint64 (buffer_etime buf))
     (delayq_ (snd r))).
Proof.
  cbn. split; [reflexivity |]. split; [| split].
  - apply prune_loop_head.
  - apply prune_loop_suffix.
  - apply prune_loop_all.
Qed.

(** Chunk C (ending at 60) ahead of chunk A (ending at 100), pruned at
    position 80: C is released and what remains ends at 80 or later. *)
Lemma PruneScope_head_not_elapsed_witness :
  Forall (fun buf => 80 <= to_qint64 (buffer_etime buf))
    (delayq_ (snd (PruneScope
       (set_current_pipeline_ (Some (pipeline_at 80)) (engine8 in_order 0 0))))).
Proof.
  apply (PruneScope_head_not_elapsed (pipeline_at 80) (engine8 in_order 0 0)).
  intros i j a b Hij Ha Hb.
  destruct i as [|[|i]]; destruct j as [|[|j]]; cbn in Ha, Hb;
    try lia; try discriminate;
    inversion Ha; inversion Hb; subst; vm_compute; discriminate.
Defined.

(** For time stamps below 2^63 the signed reading is the plain sum. *)
Lemma buffer_etime_plain (buf : GstBuffer) :
  0 <= GST_BUFFER_TIMESTAMP buf + GST_BUFFER_DURATION buf < 2 ^ 63 ->
  to_qint64 (buffer_etime buf) =
  GST_BUFFER_TIMESTAMP buf + GST_BUFFER_DURATION buf.
Proof. apply to_qint64_small. Qed.

(** ** Seek and stop *)

(** C8, as claimed, fails: [stop] leaves the build cursor where it was (here
    at 3), and so does [seek]; a [seek] without a pipeline does not even
    touch the queue. *)
Lemma stop_and_seek_keep_the_cursor :
  let s := engine8 [chunkA] 40 3 in
  ~ (delayq_ (stop s) = [] /\ current_sample_ (stop s) = 0) /\
  ~ (delayq_ (seek 7 s) = [] /\ current_sample_ (seek 7 s) = 0) /\
  ~ (delayq_ (seek 7 orphaned) = [] /\ current_sample_ (seek 7 orphaned) = 0).
Proof.
  cbv zeta. repeat split; intros (Hq & Hc); vm_compute in Hc; discriminate.
Qed.

Lemma ClearScopeQ_frame (s : GstEngine) :
  delayq_ (ClearScopeQ s) = [] /\
  current_sample_ (ClearScopeQ s) = current_sample_ s /\
  current_scope_ (ClearScopeQ s) = current_scope_ s /\
  m_scope (ClearScopeQ s) = m_scope s.
Proof. unfold ClearScopeQ. cbn. rewrite clear_loop_nil. tauto. Qed.

(** C8 (amended): [seek] drains the chunk queue when a pipeline exists and
    its [Seek] succeeds, and otherwise leaves the queue as it is; [stop]
    drains it when the fade-out is enabled or there is a pipeline to destroy,
    and otherwise leaves it as it is.  Neither of them resets the build
    cursor or touches one of the two buffers. *)
Theorem seek_and_stop_clear_the_queue_only (ms : Z) (s : GstEngine) :
  (delayq_ (seek ms s) =
     match current_pipeline_ s with
     | Some pipeline => if Seek pipeline (ms * GST_MSECOND) then [] else delayq_ s
     | None => delayq_ s
     end) /\
  (delayq_ (stop s) =
     if fadeout_enabled_ s then []
     else match current_pipeline_ s with
          | Some _ => []
          | None => delayq_ s
          end) /\
  (current_sample_ (seek ms s) = current_sample_ s /\
   current_scope_ (seek ms s) = current_scope_ s /\
   m_scope (seek ms s) = m_scope s) /\
  (current_sample_ (stop s) = current_sample_ s /\
   current_scope_ (stop s) = current_scope_ s /\
   m_scope (stop s) = m_scope s).
Proof.
  unfold seek, stop, destroy_current_pipeline.
  destruct (current_pipeline_ s) as [pipeline|];
    [destruct (Seek pipeline (ms * GST_MSECOND)) |];
    destruct (fadeout_enabled_ s); cbn; rewrite ?clear_loop_nil; tauto.
Qed.

(** ** The ready buffer *)

Section ReadyBuffer.

Variable SCOPESIZE : Z.

(** The copy loop of [scope] overwrites the indices [i], ..., [i + n - 1]. *)
Lemma copy_scope_spec (n i : nat) (src dst : list Z) :
  length src = (i + n)%nat -> length dst = (i + n)%nat ->
  copy_scope n i src dst = take i dst ++ drop i src.
Proof.
  revert i dst. induction n as [|n IH]; intros i dst Hsrc Hdst; cbn.
  - rewrite Nat.add_0_r in *.
    rewrite drop_ge by lia. rewrite take_ge by lia. by rewrite app_nil_r.
  - destruct (lookup_lt_is_Some_2 src i ltac:(lia)) as [x Hx].
    rewrite (list_lookup_total_correct _ _ _ Hx).
    rewrite IH by (rewrite ?length_insert; lia).
    rewrite (drop_S _ _ _ Hx).
    erewrite take_S_r by (apply list_lookup_insert_eq; lia).
    rewrite take_insert_ge by lia.
    by rewrite <- app_assoc.
Qed.

(** On two arrays of [SCOPESIZE] samples the loop is a wholesale copy. *)
Lemma copy_scope_whole (src dst : list Z) :
  length src = Z.to_nat SCOPESIZE -> length dst = Z.to_nat SCOPESIZE ->
  copy_scope (Z.to_nat SCOPESIZE) 0 src dst = src.
Proof.
  intros Hsrc Hdst. rewrite copy_scope_spec by assumption. reflexivity.
Qed.

(** The two ways out of [scope]: the build buffer is full and becomes the
    ready buffer, or it is not and nothing but the extraction happened. *)
Lemma scope_Done (s s' : GstEngine) (ready : list Z) :
  scope SCOPESIZE s = Done (ready, s') ->
  ready = m_scope s' /\
  exists u, UpdateScope SCOPESIZE s = Done u /\
    ((SCOPESIZE <= current_sample_ u /\
      s' = set_current_sample_ 0
             (set_m_scope
                (copy_scope (Z.to_nat SCOPESIZE) 0 (current_scope_ u) (m_scope u))
                u)) \/
     (current_sample_ u < SCOPESIZE /\ s' = u)).
Proof.
  unfold scope. intros H. apply bind_Done in H as (u & Hu & H).
  cbn in H. inversion H; subst. split; [reflexivity |].
  exists u. split; [exact Hu |].
  destruct (SCOPESIZE <=? current_sample_ u) eqn:E.
  - left. split; [lia | reflexivity].
  - right. split; [lia | reflexivity].
Qed.

(** After [scope] the cursor is below [SCOPESIZE]. *)
Lemma scope_cursor_below (s s' : GstEngine) (ready : list Z) :
  0 < SCOPESIZE ->
  scope SCOPESIZE s = Done (ready, s') -> current_sample_ s' < SCOPESIZE.
Proof.
  intros Hpos H. apply scope_Done in H as (_ & u & _ & [(_ & ->) | (Hc & ->)]).
  - cbn. exact Hpos.
  - exact Hc.
Qed.

(** Extraction never touches the ready buffer. *)
Lemma UpdateScope_m_scope (s u : GstEngine) :
  UpdateScope SCOPESIZE s = Done u -> m_scope u = m_scope s.
Proof.
  intros H. apply UpdateScope_Done in H as ((Hm & _) & _).
  rewrite Hm. unfold pruned. apply PruneScope_frame.
Qed.

(** With nothing queued, extraction has nothing to do. *)
Lemma UpdateScope_empty_queue (s : GstEngine) :
  delayq_ s = [] -> UpdateScope SCOPESIZE s = Done s.
Proof.
  intros Hq. unfold UpdateScope, PruneScope.
  destruct (current_pipeline_ s) as [pipeline|]; cbn; rewrite Hq; cbn.
  - rewrite <- Hq. by rewrite set_delayq__id.
  - reflexivity.
Qed.

End ReadyBuffer.

(** ** Repeated extraction *)

Lemma prune_loop_drop (pos : Z) (q : list GstBuffer) :
  exists k, prune_loop pos q = drop k q.
Proof.
  destruct (prune_loop_suffix pos q) as (released & Hq & _).
  exists (length released). rewrite Hq at 2. by rewrite drop_app_length.
Qed.

Lemma PruneScope_drop (s : GstEngine) :
  exists k, delayq_ (snd (PruneScope s)) = drop k (delayq_ s).
Proof.
  unfold PruneScope. destruct (current_pipeline_ s) as [p|]; cbn.
  - apply prune_loop_drop.
  - by exists 0%nat.
Qed.

Lemma UpdateScope_consumes (SCOPESIZE : Z) (s u : GstEngine) :
  UpdateScope SCOPESIZE s = Done u ->
  m_scope u = m_scope s /\
  current_pipeline_ u = current_pipeline_ s /\
  fadeout_pipeline_ u = fadeout_pipeline_ s /\
  fadeout_enabled_ u = fadeout_enabled_ s /\
  (exists k, delayq_ u = drop k (delayq_ s)) /\
  length (current_scope_ u) = length (current_scope_ s) /\
  current_sample_ s <= current_sample_ u /\
  forall k : nat,
    Z.of_nat k < current_sample_ s \/ current_sample_ u <= Z.of_nat k ->
    current_scope_ u !! k = current_scope_ s !! k.
Proof.
  intros Hu.
  apply UpdateScope_Done in Hu as ((Hm & Hp & Hf & He & Hl & Hc & Hk) & j & Hj).
  pose proof (PruneScope_frame s) as (Hpc & Hps & Hpm & Hpp & Hpf & Hpe).
  destruct (PruneScope_drop s) as (i & Hi).
  unfold pruned in *. cbn in Hpc, Hps, Hpm, Hpp, Hpf, Hpe.
  repeat split; try congruence; try lia.
  - exists (i + j)%nat. rewrite Hj, Hi. apply drop_drop.
  - intros k Hlt. rewrite <- Hps. apply Hk. lia.
Qed.

Section Replay.

Variable SCOPESIZE : Z.

Lemma same_fill_store (c0 : Z) (s t : GstEngine) (v : Z) :
  same_fill c0 s t ->
  0 <= current_sample_ s ->
  same_fill c0
    (set_current_sample_ (current_sample_ s + 1)
       (set_current_scope_ (<[Z.to_nat (current_sample_ s) := v]> (current_scope_ s)) s))
    (set_current_sample_ (current_sample_ s + 1)
       (set_current_scope_ (<[Z.to_nat (current_sample_ s) := v]> (current_scope_ t)) t)).
Proof.
  intros (Hq & Hp & Hc & Hl & He) Hnn. unfold same_fill. cbn.
  rewrite !length_insert.
  repeat split; try assumption.
  intros k Hk.
  destruct (decide (k = Z.to_nat (current_sample_ s))) as [-> | Hne].
  - destruct (decide (Z.to_nat (current_sample_ s) < length (current_scope_ s))%nat).
    + rewrite !list_lookup_insert_eq by lia. reflexivity.
    + rewrite !lookup_ge_None_2 by (rewrite length_insert; lia). reflexivity.
  - rewrite !list_lookup_insert_ne by lia. apply He. lia.
Qed.

Lemma fill_frame_same (c0 : Z) (n : nat) (data : list Z) (i j : Z)
    (s t r : GstEngine) :
  same_fill c0 s t ->
  fill_frame SCOPESIZE n data i j s = Done r ->
  exists r', fill_frame SCOPESIZE n data i j t = Done r' /\ same_fill c0 r r'.
Proof.
  revert j s t. induction n as [|n IH]; intros j s t Hs H; cbn in *.
  { inversion H; subst. eauto. }
  pose proof Hs as (_ & _ & Hc & _). rewrite <- Hc.
  destruct (current_sample_ s <? SCOPESIZE) eqn:E.
  2:{ inversion H; subst. eauto. }
  apply bind_Done in H as (v & Hv & H).
  apply bind_Done in H as (a & Ha & H).
  apply scope_store_Done in Ha as (Hk & ->).
  rewrite Hv. cbn. unfold scope_store.
  destruct (0 <=? current_sample_ s) eqn:E1; [| lia]. rewrite E. cbn.
  eapply IH; [| exact H].
  apply same_fill_store; [exact Hs | lia].
Qed.

Lemma same_fill_pop (c0 : Z) (s t : GstEngine) :
  same_fill c0 s t ->
  same_fill c0 (set_delayq_ (g_queue_pop_head (delayq_ s)) s)
    (set_delayq_ (g_queue_pop_head (delayq_ s)) t).
Proof.
  intros (Hq & Hp & Hc & Hl & He). unfold same_fill. cbn.
  repeat split; assumption.
Qed.

Lemma fill_loop_same (c0 : Z) (fuel : nat) (channels : Z)
    (buf : option GstBuffer) (i sz : Z) (data : list Z) (s t r : GstEngine) :
  same_fill c0 s t ->
  fill_loop SCOPESIZE fuel channels buf i sz data s = Done r ->
  exists r',
    fill_loop SCOPESIZE fuel channels buf i sz data t = Done r' /\
    same_fill c0 r r'.
Proof.
  revert buf i sz data s t.
  induction fuel as [|fuel IH]; intros buf i sz data s t Hs H; cbn in *;
    [discriminate |].
  destruct buf as [b|].
  2:{ inversion H; subst. eauto. }
  pose proof Hs as (_ & _ & Hc & _). rewrite <- Hc.
  destruct ((current_sample_ s <? SCOPESIZE) && (i <? sz)) eqn:E.
  2:{ inversion H; subst. eauto. }
  apply bind_Done in H as (s1 & Hs1 & H).
  apply bind_Done in H as (i1 & Hi1 & H).
  destruct (fill_frame_same _ _ _ _ _ _ _ _ Hs Hs1) as (t1 & Ht1 & Hs1t1).
  rewrite Ht1, Hi1. cbn.
  destruct (sz - 1 <=? i1).
  - pose proof Hs1t1 as (Hq1 & _). cbn in H |- *. rewrite <- Hq1.
    destruct (g_queue_peek_head (g_queue_pop_head (delayq_ s1)));
      (eapply IH; [apply same_fill_pop; exact Hs1t1 | exact H]).
  - eapply IH; eassumption.
Qed.

Lemma PruneScope_same (c0 : Z) (s t : GstEngine) :
  same_fill c0 s t ->
  fst (PruneScope s) = fst (PruneScope t) /\
  same_fill c0 (snd (PruneScope s)) (snd (PruneScope t)).
Proof.
  intros Hs. pose proof Hs as (Hq & Hp & Hc & Hl & He).
  unfold PruneScope. rewrite <- Hp, <- Hq.
  destruct (current_pipeline_ s) eqn:E; cbn; [| auto].
  split; [reflexivity |]. unfold same_fill. cbn.
  repeat split; first [assumption | reflexivity | congruence].
Qed.

(** Two engines at the same point of the same fill stay so over an
    extraction. *)
Lemma UpdateScope_same (c0 : Z) (s t u : GstEngine) :
  same_fill c0 s t ->
  UpdateScope SCOPESIZE s = Done u ->
  exists u', UpdateScope SCOPESIZE t = Done u' /\ same_fill c0 u u'.
Proof.
  intros Hs. destruct (PruneScope_same _ _ _ Hs) as (Hpos & Hs0).
  unfold UpdateScope.
  destruct (PruneScope s) as [pos s0], (PruneScope t) as [pos' t0].
  cbn in Hpos, Hs0. subst pos'.
  pose proof Hs0 as (Hq & _). rewrite <- Hq.
  destruct (g_queue_peek_head (delayq_ s0)) as [buf|].
  2:{ intros H; inversion H; subst. eauto. }
  destruct (2 <? _). { intros H; inversion H; subst. eauto. }
  destruct (_ || _). { intros H; inversion H; subst. eauto. }
  intros H.
  apply bind_Done in H as (frames & Hfr & H).
  apply bind_Done in H as (off & Hoff & H).
  rewrite Hfr. cbn. rewrite Hoff. cbn.
  destruct (buffer_sz buf <=? off). { inversion H; subst. eauto. }
  eapply fill_loop_same; eassumption.
Qed.

Lemma fill_frame_advances (n : nat) (data : list Z) (i j : Z) (s r : GstEngine) :
  fill_frame SCOPESIZE (S n) data i j s = Done r ->
  current_sample_ s < SCOPESIZE ->
  current_sample_ s < current_sample_ r.
Proof.
  cbn. intros H Hc.
  destruct (current_sample_ s <? SCOPESIZE) eqn:E; [| lia].
  apply bind_Done in H as (v & _ & H).
  apply bind_Done in H as (a & _ & H).
  apply fill_frame_Done in H as ((_&_&_&_&_&Hm&_) & _). cbn in Hm. lia.
Qed.

(** A run of the outer loop that takes no chunk off the queue and does not
    fill the build buffer copies nothing. *)
Lemma fill_loop_keeps (fuel : nat) (channels : Z) (b : GstBuffer)
    (i sz : Z) (data : list Z) (s r : GstEngine) :
  fill_loop SCOPESIZE fuel channels (Some b) i sz data s = Done r ->
  delayq_ s <> [] ->
  length (delayq_ r) = length (delayq_ s) ->
  current_sample_ r < SCOPESIZE ->
  current_sample_ r = current_sample_ s /\
  (0 < channels -> ~ (current_sample_ s < SCOPESIZE /\ i < sz)).
Proof.
  revert i s.
  induction fuel as [|fuel IH]; intros i s H Hne Hlen Hr; cbn in H;
    [discriminate |].
  destruct ((current_sample_ s <? SCOPESIZE) && (i <? sz)) eqn:E.
  2:{ inversion H; subst. split; [reflexivity |]. intros _ (Hc & Hi).
      apply andb_false_iff in E as [E | E]; lia. }
  apply andb_prop in E as (Hc & Hi). apply Z.ltb_lt in Hc. apply Z.ltb_lt in Hi.
  apply bind_Done in H as (s1 & Hs1 & H).
  apply bind_Done in H as (i1 & Hi1 & H).
  pose proof (fill_frame_Done _ _ _ _ _ _ _ Hs1) as ((_&_&_&_&_&Hm1&_) & Hq1).
  destruct (sz - 1 <=? i1) eqn:Epop.
  - (* a chunk is taken off the queue *)
    exfalso.
    assert (Hshort : forall b' i' sz' data',
              fill_loop SCOPESIZE fuel channels b' i' sz' data'
                (set_delayq_ (g_queue_pop_head (delayq_ s1)) s1) = Done r ->
              False).
    { intros b' i' sz' data' Hr'.
      apply fill_loop_Done in Hr' as (_ & k & Hk). cbn in Hk.
      rewrite Hq1 in Hk. rewrite Hk, length_drop in Hlen.
      unfold g_queue_pop_head in Hlen.
      destruct (delayq_ s); [congruence |]. cbn in Hlen. lia. }
    cbn in H.
    destruct (g_queue_peek_head (g_queue_pop_head (delayq_ s1)));
      eapply Hshort, H.
  - pose proof (fill_loop_Done _ _ _ _ _ _ _ _ _ H) as ((_&_&_&_&_&Hm&_) & _).
    destruct (IH _ _ H ltac:(congruence) ltac:(congruence) Hr) as (Hsame & Hup).
    destruct (Z.to_nat channels) as [|n] eqn:En.
    + cbn in Hs1. inversion Hs1; subst s1. split; [exact Hsame | lia].
    + exfalso. apply fill_frame_advances in Hs1; [| exact Hc].
      apply int_add_Done in Hi1 as (-> & _).
      apply Z.leb_gt in Epop. apply Hup; lia.
Qed.



(** An extraction that takes no chunk off the queue and does not fill the
    build buffer copies nothing. *)
Lemma UpdateScope_keeps (s u : GstEngine) :
  UpdateScope SCOPESIZE s = Done u ->
  length (delayq_ u) = length (delayq_ s) ->
  current_sample_ u < SCOPESIZE ->
  current_sample_ u = current_sample_ s.
Proof.
  intros Hu Hlen Hc.
  pose proof (UpdateScope_Done _ _ _ Hu) as (_ & j & Hj).
  destruct (PruneScope_drop s) as (k & Hk).
  pose proof (PruneScope_frame s) as (Hpc & _).
  revert Hu. unfold UpdateScope, pruned in *.
  destruct (PruneScope s) as [pos s0]; cbn in *.
  assert (Hlen0 : length (delayq_ u) = length (delayq_ s0)).
  { rewrite Hj, Hk, !length_drop in *. lia. }
  destruct (g_queue_peek_head (delayq_ s0)) as [buf|] eqn:Ehd.
  2:{ intros H; inversion H; subst. exact Hpc. }
  destruct (2 <? _). { intros H; inversion H; subst. exact Hpc. }
  destruct (_ || _). { intros H; inversion H; subst. exact Hpc. }
  intros H.
  apply bind_Done in H as (frames & _ & H).
  apply bind_Done in H as (off & _ & H).
  destruct (buffer_sz buf <=? off). { inversion H; subst. exact Hpc. }
  apply fill_loop_keeps in H as (H & _); [congruence | | exact Hlen0 | exact Hc].
  intros Hnil. rewrite Hnil in Ehd. discriminate.
Qed.

End Replay.

(** C9, as claimed, fails: from the state reached by [two_samples_in] two
    calls of [scope] in a row, with the pipeline position and the queue
    contents the same before both, return different ready buffers; the
    first completes the pending fill, the second starts a new one at the
    same offset. *)
Lemma scope_twice_differs :
  exists s ready1 s1 ready2 s2,
    run_calls 8 two_samples_in fresh_engine8 = Done s /\
    scope 8 s = Done (ready1, s1) /\
    scope 8 s1 = Done (ready2, s2) /\
    delayq_ s1 = delayq_ s /\
    current_pipeline_ s1 = current_pipeline_ s /\
    ready1 = [1; 2; 40; 41; 42; 43; 44; 45] /\
    ready2 = [40; 41; 42; 43; 44; 45; 46; 47] /\
    ready1 <> ready2.
Proof.
  eexists _, _, _, _, _.
  split; [vm_compute; reflexivity |].
  split; [vm_compute; reflexivity |].
  split; [vm_compute; reflexivity |].
  repeat split; discriminate.
Qed.

(** C9 (amended): a repeated call of [scope] returns the same ready-buffer
    contents as the call before it
    - whenever, on a well-formed engine (both buffers of [SCOPESIZE]
      entries, the cursor within them), the queue is the same before both
      calls (the position is: [scope] never touches the pipeline) and so is
      the build cursor, which is the case as soon as no fill was pending
      before the first call (cursor 0); the queue and the cursor are then
      the same again after the second call, so that every further call
      returns that buffer too;
    - whenever its own extraction pass leaves the build cursor below
      [SCOPESIZE], that is, whenever it does not complete a fill;
    - in particular, with a positive [SCOPESIZE] and an empty queue, in
      which case it leaves the engine exactly as it was.
    What is left out is the counterexample's case: a fill was pending before
    the first call, which completes it, and the second call starts a new
    one. *)
Theorem scope_repeated (SCOPESIZE : Z) (s s1 : GstEngine) (ready1 : list Z) :
  scope SCOPESIZE s = Done (ready1, s1) ->
  (scope_wf SCOPESIZE s ->
   delayq_ s1 = delayq_ s ->
   current_sample_ s1 = current_sample_ s \/ current_sample_ s = 0 ->
   exists s2,
     scope SCOPESIZE s1 = Done (ready1, s2) /\
     delayq_ s2 = delayq_ s1 /\
     current_sample_ s2 = current_sample_ s1) /\
  (forall u, UpdateScope SCOPESIZE s1 = Done u ->
             current_sample_ u < SCOPESIZE ->
             scope SCOPESIZE s1 = Done (ready1, u)) /\
  (0 < SCOPESIZE -> delayq_ s1 = [] -> scope SCOPESIZE s1 = Done (ready1, s1)).
Proof.
  intros H1.
  assert (Hgen : forall u, UpdateScope SCOPESIZE s1 = Done u ->
                           current_sample_ u < SCOPESIZE ->
                           scope SCOPESIZE s1 = Done (ready1, u)).
  { intros u Hu Hc. apply scope_Done in H1 as (-> & _).
    unfold scope. rewrite Hu. cbn.
    destruct (SCOPESIZE <=? current_sample_ u) eqn:E; [lia |].
    by rewrite (UpdateScope_m_scope _ _ _ Hu). }
  split; [| split; [exact Hgen |]].
  2:{ intros Hpos Hq. apply Hgen.
      - by apply UpdateScope_empty_queue.
      - eapply scope_cursor_below; eassumption. }
  intros (Hlb & Hlm & Hci) Hq Hcur.
  pose proof (scope_Done _ _ _ _ H1) as (Hr1 & u1 & Hu1 & Hcase).
  pose proof (UpdateScope_consumes _ _ _ Hu1)
    as (Hm1 & Hp1 & _ & _ & _ & Hl1 & Hmono & _).
  assert (Hcs : current_sample_ s1 = current_sample_ s).
  { destruct Hcur as [Hcur | Hzero]; [exact Hcur |].
    destruct Hcase as [(_ & ->) | (Hlt & ->)]; [cbn; lia |].
    apply (UpdateScope_keeps _ _ _ Hu1); [congruence | exact Hlt]. }
  assert (Hsame : same_fill (current_sample_ s) s s1).
  { unfold same_fill. repeat split; try congruence.
    - destruct Hcase as [(_ & ->) | (_ & ->)]; cbn; congruence.
    - destruct Hcase as [(_ & ->) | (_ & ->)]; cbn; congruence.
    - intros k Hk. lia. }
  destruct (UpdateScope_same _ _ _ _ _ Hsame Hu1)
    as (u2 & Hu2 & Hq2 & _ & Hc2 & Hl2 & He2).
  pose proof (UpdateScope_m_scope _ _ _ Hu2) as Hm2.
  destruct Hcase as [(Hfull & Hs1) | (Hlt & Hs1)].
  - (* the first call completed a fill *)
    assert (Hready : ready1 = current_scope_ u1).
    { rewrite Hr1, Hs1. cbn. apply copy_scope_whole; congruence. }
    assert (Hb2 : current_scope_ u2 = current_scope_ u1).
    { apply list_eq. intros k.
      destruct (decide (k < length (current_scope_ u1))%nat) as [Hk | Hk].
      - symmetry. apply He2. rewrite Hs1 in Hcs. cbn in Hcs. lia.
      - rewrite !lookup_ge_None_2 by lia. reflexivity. }
    eexists. split.
    + unfold scope. rewrite Hu2. cbn.
      destruct (SCOPESIZE <=? current_sample_ u2) eqn:E; [| lia].
      rewrite copy_scope_whole.
      * cbn. rewrite Hb2, <- Hready. reflexivity.
      * congruence.
      * rewrite Hm2, <- Hr1, Hready. congruence.
    + cbn. split; [| rewrite Hs1; reflexivity].
      rewrite <- Hq2. rewrite Hs1. reflexivity.
  - (* the first call left the fill pending *)
    subst s1. exists u2. split; [| split; congruence].
    apply Hgen; [exact Hu2 | lia].
Qed.

(** The specification's scenario: [chunkA] queued, the position at 40, no
    fill pending.  Both calls return the samples 40 to 47. *)
Lemma scope_repeated_witness :
  exists s2,
    scope 8 scoped_once = Done (ramp 40 8, s2) /\
    delayq_ s2 = delayq_ scoped_once /\
    current_sample_ s2 = current_sample_ scoped_once.
Proof.
  destruct (scope_repeated 8 (engine8 [chunkA] 40 0) scoped_once (ramp 40 8))
    as (Hsame & _).
  - vm_compute. reflexivity.
  - apply Hsame.
    + repeat split; vm_compute; congruence.
    + reflexivity.
    + right. reflexivity.
Defined.

(** ** Invariants of the engine *)

Section Invariants.

Variable SCOPESIZE : Z.


Lemma destroy_current_pipeline_frame (s : GstEngine) :
  current_sample_ (destroy_current_pipeline s) = current_sample_ s /\
  current_scope_ (destroy_current_pipeline s) = current_scope_ s /\
  m_scope (destroy_current_pipeline s) = m_scope s.
Proof.
  unfold destroy_current_pipeline. destruct (current_pipeline_ s); cbn; tauto.
Qed.

Lemma seek_frame (ms : Z) (s : GstEngine) :
  current_sample_ (seek ms s) = current_sample_ s /\
  current_scope_ (seek ms s) = current_scope_ s /\
  m_scope (seek ms s) = m_scope s.
Proof.
  unfold seek. destruct (current_pipeline_ s) as [p|]; [| tauto].
  destruct (Seek p _); cbn; tauto.
Qed.

(** Every call but [scope] leaves both buffers alone, and either keeps the
    cursor or (a successful [play]) puts it back to 0. *)
Lemma run_call_frame (c : call) (s s' : GstEngine) :
  c <> CallScope ->
  run_call SCOPESIZE c s = Done s' ->
  current_scope_ s' = current_scope_ s /\
  m_scope s' = m_scope s /\
  (current_sample_ s' = current_sample_ s \/ current_sample_ s' = 0).
Proof.
  intros Hc.
  destruct c; cbn; try congruence; intros H;
    try (apply bind_Done in H as ([ok t] & Hp & H); cbn in H);
    inversion H; subst; clear H.
  - cbn. tauto.
  - unfold timerEvent. pose proof (PruneScope_frame s) as (?&?&?&_). cbn in *. tauto.
  - unfold load. destruct created; cbn; [| tauto].
    pose proof (destroy_current_pipeline_frame s). tauto.
  - unfold play in Hp. destruct (current_pipeline_ s) as [p|]; [| discriminate].
    destruct (SetState_PLAYING p); inversion Hp; subst.
    + cbn. destruct (offset =? 0); cbn.
      * tauto.
      * pose proof (seek_frame offset (set_fadeout_pipeline_ None s)) as (?&?&?).
        cbn in *. tauto.
    + pose proof (destroy_current_pipeline_frame s). tauto.
  - unfold stop. destruct (fadeout_enabled_ s); cbn; [tauto |].
    pose proof (destroy_current_pipeline_frame s). tauto.
  - pose proof (seek_frame ms s). tauto.
  - unfold HandlePipelineError. pose proof (destroy_current_pipeline_frame s). tauto.
  - unfold EndOfStreamReached. pose proof (destroy_current_pipeline_frame s). tauto.
  - cbn. tauto.
  - cbn. tauto.
  - unfold pipeline_progress. destruct (current_pipeline_ s); cbn; tauto.
Qed.




Lemma UpdateScope_cursor_inv (s u : GstEngine) :
  cursor_inv SCOPESIZE s -> UpdateScope SCOPESIZE s = Done u -> cursor_inv SCOPESIZE u.
Proof.
  unfold cursor_inv. intros Hc Hu.
  apply UpdateScope_Done in Hu as ((_&_&_&_&_&Hcur&_) & _).
  pose proof (PruneScope_frame s) as (Hpc & _).
  unfold pruned in Hcur. cbn in Hpc. lia.
Qed.

Lemma run_call_cursor_inv (c : call) (s s' : GstEngine) :
  cursor_inv SCOPESIZE s -> run_call SCOPESIZE c s = Done s' -> cursor_inv SCOPESIZE s'.
Proof.
  intros Hc H.
  destruct (decide (c = CallScope)) as [-> | Hne].
  - cbn in H. apply bind_Done in H as ([ready t] & Hs & H).
    cbn in H. inversion H; subst.
    apply scope_Done in Hs as (_ & u & Hu & Hcase).
    apply (UpdateScope_cursor_inv _ _ Hc) in Hu.
    unfold cursor_inv in *.
    destruct Hcase as [(_ & ->) | (_ & ->)]; cbn; lia.
  - apply (run_call_frame _ _ _ Hne) in H as (_ & _ & Hcur).
    unfold cursor_inv in *. lia.
Qed.

Lemma run_call_write_fault (c : call) (s : GstEngine) :
  cursor_inv SCOPESIZE s -> run_call SCOPESIZE c s <> Fault WriteOutOfBounds.
Proof.
  unfold cursor_inv. intros Hc.
  destruct c; cbn; try discriminate.
  - intros H. apply bind_Fault in H as [H | (r & _ & H)]; [| discriminate].
    unfold scope in H. apply bind_Fault in H as [H | (u & _ & H)]; [| discriminate].
    apply UpdateScope_Fault in H as [H | [H | [H | (_ & H)]]];
      first [discriminate | lia].
  - unfold play. destruct (current_pipeline_ s) as [p|]; cbn; [| discriminate].
    destruct (SetState_PLAYING p); discriminate.
Qed.

(** [scope] and the other calls always come to an end. *)
Lemma run_call_terminates (c : call) (s : GstEngine) :
  run_call SCOPESIZE c s <> Fault OutOfFuel.
Proof.
  destruct c; cbn; try discriminate.
  - intros H. apply bind_Fault in H as [H | (r & _ & H)]; [| discriminate].
    unfold scope in H. apply bind_Fault in H as [H | (u & _ & H)]; [| discriminate].
    eapply UpdateScope_terminates, H.
  - unfold play. destruct (current_pipeline_ s) as [p|]; cbn; [| discriminate].
    destruct (SetState_PLAYING p); discriminate.
Qed.

Lemma run_calls_terminate (calls : list call) (s : GstEngine) :
  run_calls SCOPESIZE calls s <> Fault OutOfFuel.
Proof.
  revert s. induction calls as [|c calls IH]; intros s; cbn; [discriminate |].
  destruct (run_call SCOPESIZE c s) as [s1|f] eqn:E; cbn; [apply IH |].
  intros H. inversion H; subst. eapply run_call_terminates, E.
Qed.

(** C6: in an engine whose cursor satisfies
    [0 <= current_sample_ <= SCOPESIZE], whatever chunks are queued and
    wherever the pipeline stands, an extraction comes to an end without a
    write outside the indices 0 .. [SCOPESIZE]-1 of the build buffer, and so
    does every sequence of calls (chunks of any size and channel count
    arriving, the position moving, [scope], [play], [seek], [stop], ...);
    the invariant holds again after the extraction and after every such
    sequence, hence after every single operation. *)
Theorem scope_writes_stay_in_bounds (s : GstEngine) :
  0 <= current_sample_ s <= SCOPESIZE ->
  match UpdateScope SCOPESIZE s with
  | Done u => 0 <= current_sample_ u <= SCOPESIZE
  | Fault f => f <> WriteOutOfBounds /\ f <> OutOfFuel
  end /\
  forall calls,
    match run_calls SCOPESIZE calls s with
    | Done s' => 0 <= current_sample_ s' <= SCOPESIZE
    | Fault f => f <> WriteOutOfBounds /\ f <> OutOfFuel
    end.
Proof.
  intros Hc. split.
  - destruct (UpdateScope SCOPESIZE s) as [u|f] eqn:E.
    + eapply UpdateScope_cursor_inv; [exact Hc | exact E].
    + split; intros ->.
      * apply UpdateScope_Fault in E as [E | [E | [E | (_ & E)]]];
          first [discriminate | lia].
      * eapply UpdateScope_terminates, E.
  - intros calls.
    destruct (run_calls SCOPESIZE calls s) as [s'|f] eqn:E.
    + revert s Hc E. induction calls as [|c calls IH]; intros s Hc; cbn.
      * intros H; inversion H; subst. exact Hc.
      * intros H. apply bind_Done in H as (s1 & H1 & H).
        eapply IH; [| exact H]. eapply run_call_cursor_inv; eassumption.
    + split; intros ->; [| eapply run_calls_terminate, E].
      revert s Hc E. induction calls as [|c calls IH]; intros s Hc; cbn.
      * discriminate.
      * intros H. apply bind_Fault in H as [H | (s1 & H1 & H)].
        -- eapply run_call_write_fault; eassumption.
        -- eapply IH; [| exact H]. eapply run_call_cursor_inv; eassumption.
Qed.




(** An extraction writes the build buffer from the cursor on and nowhere
    else. *)
Lemma UpdateScope_writes_from_cursor (s u : GstEngine) (k : nat) :
  UpdateScope SCOPESIZE s = Done u ->
  Z.of_nat k < current_sample_ s \/ current_sample_ u <= Z.of_nat k ->
  current_scope_ u !! k = current_scope_ s !! k.
Proof.
  intros Hu Hk. apply UpdateScope_Done in Hu as ((_&_&_&_&_&_&Hsame) & _).
  pose proof (PruneScope_frame s) as (Hpc & Hps & _).
  unfold pruned in Hsame. cbn in Hpc, Hps.
  rewrite <- Hps. apply Hsame. lia.
Qed.

End Invariants.

(** An extraction from chunk A with three samples already in the build
    buffer. *)
Lemma scope_writes_stay_in_bounds_witness :
  match UpdateScope 8 (engine8 [chunkA] 40 3) with
  | Done u => 0 <= current_sample_ u <= 8
  | Fault f => f <> WriteOutOfBounds /\ f <> OutOfFuel
  end.
Proof.
  apply (scope_writes_stay_in_bounds 8 (engine8 [chunkA] 40 3)).
  cbn. lia.
Defined.


(** The ready buffer of [filled_once] is indeed no longer the initial one. *)
Lemma filled_once_ready : m_scope filled_once = [1; 2; 40; 41; 42; 43; 44; 45].
Proof. reflexivity. Qed.

(** ** Extraction on the examples of the specification *)

(** On values that fit, the code's offset is the quotient of the product. *)
Lemma scope_offset_plain (channels pos stime dur frames : Z) :
  0 <= channels < 2 ^ 31 -> 0 <= pos - stime < 2 ^ 64 ->
  0 < frames < 2 ^ 64 -> frames <= dur ->
  channels * (pos - stime) < 2 ^ 31 ->
  scope_offset channels pos stime dur frames =
  Done (channels * (pos - stime) / (dur / frames)).
Proof.
  intros Hch Ht Hfr Hdur Hfit. unfold scope_offset, quint64_div, to_quint64.
  rewrite (Z.mod_small frames) by lia.
  assert (Hrate : 0 < dur / frames) by (apply Z.div_str_pos; lia).
  destruct (frames =? 0) eqn:E0; [lia |]. cbn.
  destruct (dur / frames =? 0) eqn:E; [lia |]. cbn.
  assert (Hprod : 0 <= channels * (pos - stime)) by nia.
  rewrite (Z.mod_small channels), (Z.mod_small (pos - stime)) by lia.
  rewrite (Z.mod_small (channels * (pos - stime))) by lia.
  f_equal. unfold to_int.
  assert (0 <= channels * (pos - stime) / (dur / frames) <= channels * (pos - stime)).
  { split; [apply Z.div_pos; lia | apply Z.div_le_upper_bound; nia]. }
  rewrite Z.mod_small by lia. lia.
Qed.

(** The scenario of the specification: chunk A at position 40 with an
    8-sample scope.  The extraction copies the samples 40 .. 47 (frame 20
    onward), the build buffer is full, [scope] hands it over and the cursor
    is back at 0; chunk A stays queued. *)
Lemma scope_chunkA_40 :
  exists s', scope 8 (engine8 [chunkA] 40 0) = Done (ramp 40 8, s') /\
             current_sample_ s' = 0 /\ delayq_ s' = [chunkA].
Proof.
  eexists. split; [vm_compute; reflexivity | split; reflexivity].
Qed.

(** Another scenario of the specification: at position 150 chunk A, which
    ended at 100, is pruned, and the extraction finds the queue empty. *)
Lemma UpdateScope_chunkA_150 :
  UpdateScope 8 (engine8 [chunkA] 150 0) = Done (engine8 [] 150 0).
Proof. reflexivity. Qed.

(** On chunk A at position 40 code and specification agree on 40. *)
Lemma scope_offset_chunkA_40 :
  scope_offset 2 40 0 100 50 = Done 40 /\ spec_offset 2 40 0 100 50 = 40.
Proof. split; reflexivity. Qed.

(** C2: the code multiplies by the channel count before it divides by the
    frame interval, so its offset need not be a multiple of the channel
    count: on chunk A (start 0, duration 100, 2 channels, 50 frames) at
    position 41 it is 41, where flooring the frame index first gives
    2 * floor (41 / 2) = 40, and the extraction copies from sample 41 on. *)
Theorem scope_offset_not_frame_aligned :
  scope_offset 2 41 0 100 50 = Done 41 /\
  spec_offset 2 41 0 100 50 = 40 /\
  exists r, UpdateScope 8 (engine8 [chunkA] 41 0) = Done r /\
            current_scope_ r = [41; 42; 43; 44; 45; 46; 47; 48].
Proof.
  split; [reflexivity |]. split; [reflexivity |].
  eexists. split; [vm_compute; reflexivity | reflexivity].
Qed.

(** C1: a head chunk with [frame_count = 0] and a positive duration that
    contains the device position makes the extraction divide by zero, in
    [dur / frames], whatever else the engine holds. *)
Theorem UpdateScope_zero_frames_divides_by_zero (SCOPESIZE : Z)
    (rest : list GstBuffer) (s : GstEngine) :
  UpdateScope SCOPESIZE
    (set_current_pipeline_ (Some (pipeline_at 50))
       (set_delayq_ (no_frames :: rest) s)) = Fault DivisionByZero.
Proof. reflexivity. Qed.

(** The same for every head chunk, of one or two channels, that has less
    than one frame of samples while the position lies strictly inside it. *)
Lemma UpdateScope_no_frames (SCOPESIZE : Z) (s : GstEngine) (buf : GstBuffer)
    (rest : list GstBuffer) :
  delayq_ (pruned s) = buf :: rest ->
  gst_structure_get_int (caps_channels buf) 2 <= 2 ->
  GST_BUFFER_TIMESTAMP buf < to_quint64 (fst (PruneScope s)) < buffer_etime buf ->
  Z.quot (buffer_sz buf) (gst_structure_get_int (caps_channels buf) 2) = 0 ->
  UpdateScope SCOPESIZE s = Fault DivisionByZero.
Proof.
  unfold UpdateScope, pruned. destruct (PruneScope s) as [pos s0]; cbn.
  intros Hq Hch Hpos Hfr. rewrite Hq. cbn.
  destruct (2 <? _) eqn:E; [lia |].
  destruct (to_quint64 pos <=? GST_BUFFER_TIMESTAMP buf) eqn:E1; [lia |].
  destruct (buffer_etime buf <=? to_quint64 pos) eqn:E2; [lia |]. cbn.
  unfold int_div. destruct (_ =? 0); [reflexivity |]. cbn.
  rewrite Hfr. reflexivity.
Qed.

(** A head chunk of duration zero is never divided by: no position lies
    strictly inside it, and the extraction returns at that test. *)
Lemma UpdateScope_zero_duration (SCOPESIZE : Z) (s : GstEngine)
    (buf : GstBuffer) (rest : list GstBuffer) :
  delayq_ (pruned s) = buf :: rest ->
  GST_BUFFER_DURATION buf = 0 ->
  0 <= GST_BUFFER_TIMESTAMP buf < 2 ^ 64 ->
  UpdateScope SCOPESIZE s = Done (pruned s).
Proof.
  unfold UpdateScope, pruned. destruct (PruneScope s) as [pos s0]; cbn.
  intros Hq Hdur Hts. rewrite Hq. cbn.
  destruct (2 <? _); [reflexivity |].
  unfold buffer_etime, to_quint64. rewrite Hdur, Z.add_0_r.
  rewrite (Z.mod_small (GST_BUFFER_TIMESTAMP buf)) by lia.
  destruct (pos mod 2 ^ 64 <=? GST_BUFFER_TIMESTAMP buf) eqn:E1; [reflexivity |].
  destruct (GST_BUFFER_TIMESTAMP buf <=? pos mod 2 ^ 64) eqn:E2; [reflexivity |].
  lia.
Qed.

(** The example of the specification: chunk B (start 0, no duration, no
    frames) ahead of chunk C (start 10, duration 50, 25 stereo frames) at
    position 20.  The pruning releases B, and the extraction then reads C
    from offset 10, without a division by zero. *)
Lemma UpdateScope_chunkB_chunkC :
  delayq_ (pruned (engine8 [chunkB; chunkC] 20 0)) = [chunkC] /\
  exists r, UpdateScope 8 (engine8 [chunkB; chunkC] 20 0) = Done r /\
            delayq_ r = [chunkC] /\
            current_scope_ r = [110; 111; 112; 113; 114; 115; 116; 117].
Proof.
  split; [reflexivity |].
  eexists. split; [vm_compute; reflexivity | split; reflexivity].
Qed.

(** C3: the loop pops a chunk as soon as [i >= sz - 1], that is, while one
    sample may still be left: of the mono chunk [mono4], read from offset 0
    into an empty 8-sample build buffer, only the samples 1, 2 and 3 are
    copied; the chunk is popped and released with its last sample, 4, never
    copied, although the buffer has room for it. *)
Theorem UpdateScope_drops_last_mono_sample :
  exists r, UpdateScope 8 (engine8 [mono4] 10 0) = Done r /\
            delayq_ r = [] /\
            current_sample_ r = 3 /\
            current_scope_ r = [1; 2; 3; 0; 0; 0; 0; 0].
Proof.
  eexists. split; [vm_compute; reflexivity |]. repeat split; reflexivity.
Qed.

(** C4: the channel count is tested on the head chunk at entry only.  When
    the stereo head is used up inside one extraction, the loop goes on with
    the six-channel chunk behind it and copies its samples 11, 12, 13, 14
    into the build buffer, two per frame as for the chunk before. *)
Theorem UpdateScope_copies_from_surround_chunk :
  exists r, UpdateScope 8 (engine8 stereo_then_surround 10 0) = Done r /\
            delayq_ r = [surround] /\
            current_scope_ r = [1; 2; 3; 4; 11; 12; 13; 14].
Proof.
  eexists. split; [vm_compute; reflexivity |]. split; reflexivity.
Qed.

(** As the head chunk at entry, a chunk of more than two channels gives
    nothing to the build buffer: the extraction does nothing beyond the
    pruning. *)
Lemma UpdateScope_wide_head (SCOPESIZE : Z) (s : GstEngine) (buf : GstBuffer)
    (rest : list GstBuffer) :
  delayq_ (pruned s) = buf :: rest ->
  2 < gst_structure_get_int (caps_channels buf) 2 ->
  UpdateScope SCOPESIZE s = Done (pruned s).
Proof.
  unfold UpdateScope, pruned. destruct (PruneScope s) as [pos s0]; cbn.
  intros Hq Hch. rewrite Hq. cbn.
  destruct (2 <? _) eqn:E; [reflexivity | lia].
Qed.

(** Pruning and clearing never look at the channel count. *)
Lemma prune_and_clear_ignore_channels (n pos : Z) (buf : GstBuffer)
    (rest : list GstBuffer) :
  prune_loop pos (with_channels n buf :: rest) =
    (if to_qint64 (buffer_etime buf) <? pos then prune_loop pos rest
     else with_channels n buf :: rest) /\
  clear_loop (with_channels n buf :: rest) = [].
Proof. split; [reflexivity | apply clear_loop_nil]. Qed.

(** * Further properties of the engine *)

(** ** Outcomes and frame of an extraction *)

(** X1: a call of [scope] always comes to an end.  It returns the ready
    buffer of the state it leaves, or it fails exactly as its extraction
    pass fails, which can only be by a division by zero, a read outside the
    data of a chunk, an overflow of the sample index, or, with a negative
    cursor, a write outside the build buffer. *)
Theorem scope_outcomes (SCOPESIZE : Z) (s : GstEngine) :
  match scope SCOPESIZE s with
  | Done (ready, s') => ready = m_scope s'
  | Fault f =>
      UpdateScope SCOPESIZE s = Fault f /\
      (f = DivisionByZero \/ f = ReadOutOfBounds \/ f = SignedOverflow \/
       (f = WriteOutOfBounds /\ current_sample_ s < 0))
  end.
Proof.
  destruct (scope SCOPESIZE s) as [[ready s']|f] eqn:E.
  - apply scope_Done in E as (-> & _). reflexivity.
  - unfold scope in E. apply bind_Fault in E as [E | (u & _ & E)]; [| discriminate].
    split; [exact E |]. apply UpdateScope_Fault in E. exact E.
Qed.

(** X2: an extraction only consumes.  It leaves the ready buffer, both
    pipelines and the settings alone; the queue it leaves is the queue it
    found less some chunks at the head; the build buffer keeps its size and
    every entry below the old cursor or from the new cursor on; the cursor
    never moves back. *)
Theorem UpdateScope_only_consumes (SCOPESIZE : Z) (s : GstEngine) :
  match UpdateScope SCOPESIZE s with
  | Done u =>
      m_scope u = m_scope s /\
      current_pipeline_ u = current_pipeline_ s /\
      fadeout_pipeline_ u = fadeout_pipeline_ s /\
      fadeout_enabled_ u = fadeout_enabled_ s /\
      (exists k, delayq_ u = drop k (delayq_ s)) /\
      length (current_scope_ u) = length (current_scope_ s) /\
      current_sample_ s <= current_sample_ u /\
      forall k : nat,
        Z.of_nat k < current_sample_ s \/ current_sample_ u <= Z.of_nat k ->
        current_scope_ u !! k = current_scope_ s !! k
  | Fault _ => True
  end.
Proof.
  destruct (UpdateScope SCOPESIZE s) as [u|f] eqn:E; [| exact I].
  exact (UpdateScope_consumes _ _ _ E).
Qed.

(** ** Where the copied samples come from *)

Section UptoProperties.

Variable SCOPESIZE : Z.

(** The runs followed up to their end are the runs. *)
Lemma fill_frame_upto_spec (n : nat) (data : list Z) (i j : Z) (s : GstEngine) :
  fill_frame SCOPESIZE n data i j s =
  outcome_of (fill_frame_upto SCOPESIZE n data i j s).
Proof.
  revert j s. induction n as [|n IH]; intros j s; cbn; [reflexivity |].
  destruct (current_sample_ s <? SCOPESIZE); [| reflexivity].
  destruct (sample_load data (i + j)) as [v|f]; cbn; [| reflexivity].
  destruct (scope_store SCOPESIZE _ _ v) as [a|f]; cbn; [| reflexivity].
  apply IH.
Qed.

Lemma fill_loop_upto_spec (fuel : nat) (channels : Z) (buf : option GstBuffer)
    (i sz : Z) (data : list Z) (s : GstEngine) :
  fill_loop SCOPESIZE fuel channels buf i sz data s =
  outcome_of (fill_loop_upto SCOPESIZE fuel channels buf i sz data s).
Proof.
  revert buf i sz data s.
  induction fuel as [|fuel IH]; intros buf i sz data s; cbn; [reflexivity |].
  destruct buf as [b|]; [| reflexivity].
  destruct (_ && _); [| reflexivity].
  rewrite fill_frame_upto_spec.
  destruct (fill_frame_upto SCOPESIZE _ data i 0 s) as [s1 [f|]]; cbn;
    [reflexivity |].
  destruct (int_add i channels) as [i1|f]; cbn; [| reflexivity].
  destruct (sz - 1 <=? i1); [| apply IH].
  destruct (g_queue_peek_head _); apply IH.
Qed.

Lemma UpdateScope_upto_spec (s : GstEngine) :
  UpdateScope SCOPESIZE s = outcome_of (UpdateScope_upto SCOPESIZE s).
Proof.
  unfold UpdateScope, UpdateScope_upto. destruct (PruneScope s) as [pos s0].
  destruct (g_queue_peek_head (delayq_ s0)) as [buf|]; [| reflexivity].
  destruct (2 <? _); [reflexivity |].
  destruct (_ || _); [reflexivity |].
  destruct (int_div _ _) as [frames|f]; cbn; [| reflexivity].
  destruct (scope_offset _ _ _ _ frames) as [off|f]; cbn; [| reflexivity].
  destruct (buffer_sz buf <=? off); [reflexivity |].
  apply fill_loop_upto_spec.
Qed.

Variable P : Z -> Prop.
Variable L : nat.
Variable c0 : Z.

Lemma fill_frame_upto_sourced (n : nat) (data : list Z) (i j : Z) (s : GstEngine) :
  (forall v, v ∈ data -> P v) ->
  sourced P L c0 s ->
  sourced P L c0 (fst (fill_frame_upto SCOPESIZE n data i j s)) /\
  delayq_ (fst (fill_frame_upto SCOPESIZE n data i j s)) = delayq_ s.
Proof.
  intros Hdata. revert j s. induction n as [|n IH]; intros j s Hs; cbn; [auto |].
  destruct (current_sample_ s <? SCOPESIZE); [| auto].
  destruct (sample_load data (i + j)) as [v|f] eqn:Ev; cbn; [| auto].
  destruct (scope_store SCOPESIZE _ _ v) as [a|f] eqn:Ea; cbn; [| auto].
  apply sample_load_Done in Ev as (_ & Ev).
  apply scope_store_Done in Ea as (Hk & ->).
  edestruct IH as (Hr & Hqr); [| split; [exact Hr | rewrite Hqr; reflexivity]].
  destruct Hs as (Hl & He). split; cbn.
  - by rewrite length_insert.
  - intros k Hc HL.
    destruct (decide (k = Z.to_nat (current_sample_ s))) as [-> | Hne].
    + exists v. split; [eapply Hdata, list_elem_of_lookup_2, Ev |].
      apply list_lookup_insert_eq. lia.
    + rewrite list_lookup_insert_ne by lia. apply He; lia.
Qed.

Lemma fill_loop_upto_sourced (fuel : nat) (channels : Z)
    (buf : option GstBuffer) (i sz : Z) (data : list Z) (s : GstEngine) :
  (forall v, v ∈ data -> P v) ->
  (forall b v, b ∈ delayq_ s -> v ∈ GST_BUFFER_DATA b -> P v) ->
  sourced P L c0 s ->
  sourced P L c0 (fst (fill_loop_upto SCOPESIZE fuel channels buf i sz data s)).
Proof.
  revert buf i sz data s.
  induction fuel as [|fuel IH]; intros buf i sz data s Hdata Hq Hs; cbn;
    [exact Hs |].
  destruct buf as [b|]; [| exact Hs].
  destruct (_ && _); [| exact Hs].
  destruct (fill_frame_upto_sourced (Z.to_nat channels) data i 0 s Hdata Hs)
    as (Hs1 & Hq1).
  destruct (fill_frame_upto SCOPESIZE _ data i 0 s) as [s1 [f|]]; cbn in *;
    [exact Hs1 |].
  destruct (int_add i channels) as [i1|f]; cbn; [| exact Hs1].
  destruct (sz - 1 <=? i1).
  2:{ apply IH; [exact Hdata | by rewrite Hq1 | exact Hs1]. }
  assert (Hs2 : sourced P L c0 (set_delayq_ (g_queue_pop_head (delayq_ s1)) s1))
    by exact Hs1.
  assert (Hq2 : forall b' v, b' ∈ g_queue_pop_head (delayq_ s1) ->
                  v ∈ GST_BUFFER_DATA b' -> P v).
  { intros b' v Hb'. apply Hq. rewrite <- Hq1.
    unfold g_queue_pop_head in Hb'. destruct (delayq_ s1); [exact Hb' |].
    apply elem_of_cons. by right. }
  cbn. destruct (g_queue_peek_head (g_queue_pop_head (delayq_ s1))) as [next|] eqn:Ehd.
  - apply IH; [| exact Hq2 | exact Hs2].
    intros v. apply Hq2. unfold g_queue_peek_head in Ehd.
    destruct (g_queue_pop_head (delayq_ s1)); [discriminate |].
    cbn in Ehd. inversion Ehd; subst. apply elem_of_cons. by left.
  - apply IH; [exact Hdata | exact Hq2 | exact Hs2].
Qed.

End UptoProperties.

(** X3: in every run of [UpdateScope], whether it returns or is stopped by
    an undefined operation, every value written into the build buffer up to
    the return or up to that operation (the entries between the old cursor
    and the cursor then) is a sample of a chunk that was queued when the run
    started.  A value that is no sample of a queued chunk can reach the
    build buffer only by the read outside a chunk's data on which the run
    is stopped. *)
Theorem UpdateScope_copies_queued_samples (SCOPESIZE : Z) (s : GstEngine) :
  let u := fst (UpdateScope_upto SCOPESIZE s) in
  UpdateScope SCOPESIZE s = outcome_of (UpdateScope_upto SCOPESIZE s) /\
  forall k : nat,
    current_sample_ s <= Z.of_nat k < current_sample_ u ->
    (k < length (current_scope_ s))%nat ->
    exists buf v,
      buf ∈ delayq_ s /\ v ∈ GST_BUFFER_DATA buf /\
      current_scope_ u !! k = Some v.
Proof.
  cbv zeta. split; [apply UpdateScope_upto_spec |].
  set (P := fun v : Z => exists buf, buf ∈ delayq_ s /\ v ∈ GST_BUFFER_DATA buf).
  assert (Hsub : forall b, b ∈ delayq_ (pruned s) -> b ∈ delayq_ s).
  { destruct (PruneScope_drop s) as (j & Hj). unfold pruned. rewrite Hj.
    intros b Hb. apply list_elem_of_lookup in Hb as (n & Hn).
    rewrite lookup_drop in Hn. eapply list_elem_of_lookup_2, Hn. }
  pose proof (PruneScope_frame s) as (Hpc & Hps & _).
  assert (Hs0 : sourced P (length (current_scope_ s)) (current_sample_ s) (pruned s)).
  { unfold pruned. split; [congruence |]. intros k Hk. cbn in Hpc. lia. }
  assert (Hu : sourced P (length (current_scope_ s)) (current_sample_ s)
                 (fst (UpdateScope_upto SCOPESIZE s))).
  { unfold UpdateScope_upto. unfold pruned in *.
    destruct (PruneScope s) as [pos s0]; cbn in *.
    destruct (g_queue_peek_head (delayq_ s0)) as [buf|] eqn:Ehd; [| exact Hs0].
    destruct (2 <? _); [exact Hs0 |].
    destruct (_ || _); [exact Hs0 |].
    destruct (int_div _ _) as [frames|f]; [| exact Hs0].
    destruct (scope_offset _ _ _ _ frames) as [off|f]; [| exact Hs0].
    destruct (buffer_sz buf <=? off); [exact Hs0 |].
    apply fill_loop_upto_sourced; [| | exact Hs0].
    - intros v Hv. exists buf. split; [| exact Hv]. apply Hsub.
      unfold g_queue_peek_head in Ehd. destruct (delayq_ s0); [discriminate |].
      cbn in Ehd. inversion Ehd; subst. apply elem_of_cons; by left.
    - intros b v Hb Hv. exists b. split; [apply Hsub, Hb | exact Hv]. }
  destruct Hu as (_ & Hu). intros k Hk Hlen.
  destruct (Hu k Hk Hlen) as (v & (buf & Hb & Hv) & Hlook).
  exists buf, v. auto.
Qed.

(** [chunkA] at position 99: the left sample of the last frame is copied,
    the read of a right sample behind it is outside the data. *)
Lemma UpdateScope_copies_queued_samples_witness :
  UpdateScope 8 (engine8 [chunkA] 99 0) = Fault ReadOutOfBounds /\
  current_sample_ (fst (UpdateScope_upto 8 (engine8 [chunkA] 99 0))) = 1 /\
  exists buf v,
    buf ∈ delayq_ (engine8 [chunkA] 99 0) /\
    v ∈ GST_BUFFER_DATA buf /\
    current_scope_ (fst (UpdateScope_upto 8 (engine8 [chunkA] 99 0))) !! 0%nat
      = Some v.
Proof.
  destruct (UpdateScope_copies_queued_samples 8 (engine8 [chunkA] 99 0))
    as (Hrun & Hsrc).
  split; [rewrite Hrun; vm_compute; reflexivity |].
  split; [vm_compute; reflexivity |].
  apply Hsrc.
  - split; vm_compute; congruence.
  - vm_compute. lia.
Defined.

(** ** Stereo chunks are streamed in order *)

Section Stereo.

Variable SCOPESIZE : Z.

Lemma sample_load_lookup (data : list Z) (k v : Z) :
  0 <= k -> data !! Z.to_nat k = Some v -> sample_load data k = Done v.
Proof.
  intros Hk Hv. unfold sample_load.
  destruct (k <? 0) eqn:E; [lia |]. by rewrite Hv.
Qed.

Lemma scope_store_in (a : list Z) (k v : Z) :
  0 <= k < SCOPESIZE ->
  scope_store SCOPESIZE a k v = Done (<[Z.to_nat k := v]> a).
Proof.
  intros Hk. unfold scope_store.
  destruct (0 <=? k) eqn:E1; [| lia]. destruct (k <? SCOPESIZE) eqn:E2; [| lia].
  reflexivity.
Qed.

(** One stereo frame: both samples, or the left one alone when a single slot
    is left. *)
Lemma fill_frame_stereo (data : list Z) (i d0 d1 : Z) (s : GstEngine) :
  0 <= i ->
  data !! Z.to_nat i = Some d0 ->
  data !! Z.to_nat (i + 1) = Some d1 ->
  0 <= current_sample_ s < SCOPESIZE ->
  length (current_scope_ s) = Z.to_nat SCOPESIZE ->
  exists r,
    fill_frame SCOPESIZE 2 data i 0 s = Done r /\
    current_sample_ r = Z.min SCOPESIZE (current_sample_ s + 2) /\
    current_scope_ r !! Z.to_nat (current_sample_ s) = Some d0 /\
    (current_sample_ s + 1 < SCOPESIZE ->
     current_scope_ r !! Z.to_nat (current_sample_ s + 1) = Some d1).
Proof.
  intros Hi H0 H1 Hc Hlen. cbn.
  destruct (current_sample_ s <? SCOPESIZE) eqn:E; [| lia].
  rewrite Z.add_0_r. rewrite (sample_load_lookup _ _ _ Hi H0). cbn.
  rewrite scope_store_in by lia. cbn.
  destruct (current_sample_ s + 1 <? SCOPESIZE) eqn:E1.
  - change (i + (0 + 1)) with (i + 1).
    rewrite (sample_load_lookup data (i + 1) d1) by (lia || exact H1). cbn.
    rewrite scope_store_in by lia. cbn.
    eexists. split; [reflexivity |]. cbn. split; [lia |]. split.
    + rewrite list_lookup_insert_ne by lia.
      apply list_lookup_insert_eq. lia.
    + intros _. apply list_lookup_insert_eq. rewrite length_insert. lia.
  - eexists. split; [reflexivity |]. cbn. split; [lia |]. split.
    + apply list_lookup_insert_eq. lia.
    + lia.
Qed.

Lemma streamed_frame (s s1 t u : GstEngine) (d0 d1 : Z) (stream : list Z) :
  0 <= current_sample_ s < SCOPESIZE ->
  current_sample_ s1 = Z.min SCOPESIZE (current_sample_ s + 2) ->
  current_scope_ s1 !! Z.to_nat (current_sample_ s) = Some d0 ->
  (current_sample_ s + 1 < SCOPESIZE ->
   current_scope_ s1 !! Z.to_nat (current_sample_ s + 1) = Some d1) ->
  current_sample_ t = current_sample_ s1 ->
  current_scope_ t = current_scope_ s1 ->
  fills SCOPESIZE t u ->
  streamed SCOPESIZE t u stream ->
  streamed SCOPESIZE s u (d0 :: d1 :: stream).
Proof.
  intros Hc Hc1 H0 H1 Hct Hst (_&_&_&_&_&Hcu&Hsame) (Hlen & Hlook).
  split.
  - rewrite Hlen, Hct, Hc1. cbn [length]. lia.
  - intros j Hj.
    destruct j as [|[|j]].
    + rewrite Nat.add_0_r. rewrite Hsame by lia. rewrite Hst. exact H0.
    + rewrite Hsame by lia. rewrite Hst.
      replace (Z.to_nat (current_sample_ s) + 1)%nat
        with (Z.to_nat (current_sample_ s + 1)) by lia.
      apply H1. lia.
    + change ((d0 :: d1 :: stream) !! S (S j)) with (stream !! j).
      rewrite <- (Hlook j) by lia. f_equal. lia.
Qed.

(** The outer loop on chunks of whole stereo frames, from an even index. *)
Lemma fill_loop_stereo (fuel : nat) (b : GstBuffer) (rest : list GstBuffer)
    (i : Z) (s : GstEngine) :
  delayq_ s = b :: rest ->
  Forall stereo_frames (b :: rest) ->
  0 <= i < buffer_sz b ->
  Z.even i = true ->
  0 <= current_sample_ s <= SCOPESIZE ->
  length (current_scope_ s) = Z.to_nat SCOPESIZE ->
  (Z.to_nat (buffer_sz b - i) + queued_samples rest < fuel)%nat ->
  exists u,
    fill_loop SCOPESIZE fuel 2 (Some b) i (buffer_sz b) (GST_BUFFER_DATA b) s
      = Done u /\
    streamed SCOPESIZE s u (samples_ahead i (b :: rest)).
Proof.
  revert b rest i s.
  induction fuel as [|fuel IH]; intros b rest i s Hq Hall Hi Hev Hc Hlen Hfuel;
    [lia |].
  cbn [fill_loop].
  destruct (Z.eq_dec (current_sample_ s) SCOPESIZE) as [Hfull | Hroom].
  { destruct (current_sample_ s <? SCOPESIZE) eqn:E; [lia |]. cbn.
    eexists. split; [reflexivity |]. split; [lia | intros j Hj; lia]. }
  destruct (current_sample_ s <? SCOPESIZE) eqn:E; [| lia].
  destruct (i <? buffer_sz b) eqn:Ei; [| lia]. cbn [andb].
  pose proof Hall as Hall0. apply Forall_cons in Hall0 as ((Hevb & Hszb) & Hrest).
  rewrite buffer_sz_length in *.
  set (data := GST_BUFFER_DATA b) in *.
  assert (Hi1 : i + 1 < Z.of_nat (length data)).
  { apply Z.even_spec in Hev as (x & ->). apply Z.even_spec in Hevb as (y & Hy).
    lia. }
  destruct (lookup_lt_is_Some_2 data (Z.to_nat i) ltac:(lia)) as [d0 H0].
  destruct (lookup_lt_is_Some_2 data (Z.to_nat (i + 1)) ltac:(lia)) as [d1 H1].
  destruct (fill_frame_stereo data i d0 d1 s ltac:(lia) H0 H1 ltac:(lia) Hlen)
    as (s1 & Hs1 & Hc1 & Hd0 & Hd1).
  change (Z.to_nat 2) with 2%nat. rewrite Hs1. cbn [mbind outcome_bind].
  pose proof (fill_frame_Done _ _ _ _ _ _ _ Hs1) as ((_&_&_&_&Hl1&_&_) & Hq1).
  assert (Hadd : int_add i 2 = Done (i + 2)).
  { unfold int_add, INT_MIN, INT_MAX in *.
    destruct (- 2 ^ 31 <=? i + 2) eqn:Ea; [| lia].
    destruct (i + 2 <=? 2 ^ 31 - 1) eqn:Eb; [| lia]. reflexivity. }
  rewrite Hadd. cbn [mbind outcome_bind].
  assert (Hdrop : drop (Z.to_nat i) data = d0 :: d1 :: drop (Z.to_nat (i + 2)) data).
  { rewrite (drop_S _ _ _ H0). f_equal.
    replace (S (Z.to_nat i)) with (Z.to_nat (i + 1)) by lia.
    rewrite (drop_S _ _ _ H1). f_equal. f_equal. lia. }
  destruct (Z.of_nat (length data) - 1 <=? i + 2) eqn:Epop.
  - (* the chunk is used up: it is popped *)
    assert (Hend : i + 2 = Z.of_nat (length data)).
    { apply Z.even_spec in Hev as (x & ->). apply Z.even_spec in Hevb as (y & Hy).
      lia. }
    cbn zeta. cbn [delayq_ set_delayq_]. rewrite Hq1, Hq.
    cbn [g_queue_pop_head tail].
    assert (Hnil : drop (Z.to_nat (i + 2)) data = []) by (apply drop_ge; lia).
    destruct rest as [|next rest'].
    + cbn [g_queue_peek_head head].
      destruct fuel as [|fuel]; [lia |]. cbn [fill_loop].
      eexists. split; [reflexivity |].
      unfold samples_ahead. fold data. rewrite Hdrop, Hnil. cbn.
      apply (streamed_frame s s1 (set_delayq_ [] s1) _ d0 d1 []
               ltac:(lia) Hc1 Hd0 Hd1 eq_refl eq_refl (fills_refl _ _)).
      split; [cbn; lia | intros j Hj; cbn in Hj; lia].
    + cbn [g_queue_peek_head head].
      pose proof Hrest as Hnext. apply Forall_cons in Hnext as ((_ & Hsz') & _).
      destruct (IH next rest' 0 (set_delayq_ (next :: rest') s1))
        as (u & Hu & Hstream).
      * reflexivity.
      * exact Hrest.
      * lia.
      * reflexivity.
      * cbn. lia.
      * cbn. congruence.
      * change (queued_samples (next :: rest'))
          with (S (length (GST_BUFFER_DATA next)) + queued_samples rest')%nat
          in Hfuel.
        rewrite buffer_sz_length. lia.
      * exists u. split; [exact Hu |].
        unfold samples_ahead at 1. fold data. rewrite Hdrop, Hnil.
        apply fill_loop_Done in Hu as (Hfill & _).
        exact (streamed_frame s s1 _ u d0 d1 _
                 ltac:(lia) Hc1 Hd0 Hd1 eq_refl eq_refl Hfill Hstream).
  - (* more frames in this chunk *)
    apply Z.leb_gt in Epop.
    destruct (IH b rest (i + 2) s1) as (u & Hu & Hstream).
    + congruence.
    + exact Hall.
    + rewrite buffer_sz_length. fold data. lia.
    + rewrite Z.even_add, Hev. reflexivity.
    + lia.
    + congruence.
    + rewrite buffer_sz_length. fold data. lia.
    + rewrite buffer_sz_length in Hu. fold data in Hu.
      exists u. split; [exact Hu |].
      unfold samples_ahead at 1. fold data. rewrite Hdrop.
      apply fill_loop_Done in Hu as (Hfill & _).
      exact (streamed_frame s s1 s1 u d0 d1 _
               ltac:(lia) Hc1 Hd0 Hd1 eq_refl eq_refl Hfill Hstream).
Qed.

Lemma UpdateScope_stereo (s : GstEngine) (buf : GstBuffer)
    (rest : list GstBuffer) (off : Z) :
  scope_wf SCOPESIZE s ->
  stereo_head s buf rest off ->
  exists u,
    UpdateScope SCOPESIZE s = Done u /\
    streamed SCOPESIZE (pruned s) u (samples_ahead off (buf :: rest)).
Proof.
  intros (Hlen & _ & Hc) (Hq & Hall & Hch & Hpos & Hoff & Hin & Hev).
  pose proof (PruneScope_frame s) as (Hpc & Hps & _).
  unfold UpdateScope, pruned in *. destruct (PruneScope s) as [pos s0]; cbn in *.
  rewrite Hq. cbn -[fill_loop scope_fuel]. rewrite Hch. cbn -[fill_loop scope_fuel].
  destruct (to_quint64 pos <=? GST_BUFFER_TIMESTAMP buf) eqn:E1; [lia |].
  destruct (buffer_etime buf <=? to_quint64 pos) eqn:E2; [lia |].
  cbn -[fill_loop scope_fuel].
  unfold int_div. cbn -[fill_loop scope_fuel]. rewrite Hoff.
  cbn -[fill_loop scope_fuel].
  destruct (buffer_sz buf <=? off) eqn:E3; [lia |].
  apply fill_loop_stereo; try assumption.
  - unfold cursor_inv in Hc. lia.
  - congruence.
  - unfold scope_fuel. change (0 <? 2) with true. cbv iota. rewrite ?Hq.
    change (queued_samples (buf :: rest))
      with (S (length (GST_BUFFER_DATA buf)) + queued_samples rest)%nat.
    rewrite buffer_sz_length in *. lia.
Qed.

(** X4: on a queue of whole stereo frames, read from an even offset of a
    two-channel head chunk that is being played, an extraction succeeds and
    copies the samples ahead (the rest of the head chunk, then the chunks
    behind it) in their order into the build buffer, from the cursor on, as
    many as there are or as the buffer has room for. *)
Theorem UpdateScope_streams_stereo (s : GstEngine) (buf : GstBuffer)
    (rest : list GstBuffer) (off : Z) :
  scope_wf SCOPESIZE s ->
  stereo_head s buf rest off ->
  exists u,
    UpdateScope SCOPESIZE s = Done u /\
    current_sample_ u =
      Z.min SCOPESIZE
        (current_sample_ s + Z.of_nat (length (samples_ahead off (buf :: rest)))) /\
    forall j : nat,
      current_sample_ s + Z.of_nat j < current_sample_ u ->
      current_scope_ u !! (Z.to_nat (current_sample_ s) + j)%nat =
      samples_ahead off (buf :: rest) !! j.
Proof.
  intros Hwf Hhead.
  destruct (UpdateScope_stereo _ _ _ _ Hwf Hhead) as (u & Hu & Hcur & Hlook).
  pose proof (PruneScope_frame s) as (Hpc & _). unfold pruned in *. cbn in Hpc.
  exists u. split; [exact Hu |]. rewrite <- Hpc. split; [exact Hcur | exact Hlook].
Qed.

(** X5: under the same conditions, when the samples ahead are enough to fill
    the room that is left, one call of [scope] returns a complete buffer:
    the entries that were already built, followed by the samples ahead in
    their order; the cursor is back at 0. *)
Theorem scope_returns_stereo_window (s : GstEngine) (buf : GstBuffer)
    (rest : list GstBuffer) (off : Z) :
  scope_wf SCOPESIZE s ->
  stereo_head s buf rest off ->
  SCOPESIZE - current_sample_ s <=
    Z.of_nat (length (samples_ahead off (buf :: rest))) ->
  exists ready s',
    scope SCOPESIZE s = Done (ready, s') /\
    current_sample_ s' = 0 /\
    length ready = Z.to_nat SCOPESIZE /\
    forall k : nat,
      Z.of_nat k < SCOPESIZE ->
      ready !! k =
        if Z.of_nat k <? current_sample_ s then current_scope_ s !! k
        else samples_ahead off (buf :: rest)
               !! (k - Z.to_nat (current_sample_ s))%nat.
Proof.
  intros Hwf Hhead Hroom.
  destruct (UpdateScope_stereo _ _ _ _ Hwf Hhead) as (u & Hu & Hcur & Hlook).
  pose proof (PruneScope_frame s) as (Hpc & Hps & _).
  unfold pruned in *. cbn in Hpc, Hps. rewrite Hpc in Hcur, Hlook.
  pose proof Hwf as (Hlen & Hm & Hc). unfold cursor_inv in Hc.
  pose proof (UpdateScope_Done _ _ _ Hu) as ((_&_&_&_&Hlu&_&Hsame) & _).
  unfold pruned in *. rewrite Hps in Hlu, Hsame. rewrite Hpc in Hsame.
  assert (Hfull : current_sample_ u = SCOPESIZE) by lia.
  pose proof (UpdateScope_m_scope _ _ _ Hu) as Hmu.
  exists (current_scope_ u),
    (set_current_sample_ 0 (set_m_scope (current_scope_ u) u)). split.
  { unfold scope. rewrite Hu. cbn.
    destruct (SCOPESIZE <=? current_sample_ u) eqn:E; [| lia].
    rewrite copy_scope_whole by congruence. reflexivity. }
  split; [reflexivity |]. split; [congruence |].
  intros k Hk.
  destruct (Z.of_nat k <? current_sample_ s) eqn:E.
  - apply Hsame. lia.
  - apply Z.ltb_ge in E.
    rewrite <- (Hlook (k - Z.to_nat (current_sample_ s))%nat) by lia.
    f_equal. lia.
Qed.

End Stereo.

(** [two_chunks] at position 60 with three samples built: offset 2 of the
    first chunk. *)
Lemma two_chunks_wf : scope_wf 8 (engine8 two_chunks 60 3).
Proof. repeat split; vm_compute; congruence. Qed.

Lemma two_chunks_stereo_head :
  stereo_head (engine8 two_chunks 60 3) (stereo 0 100 [1; 2; 3; 4])
    [stereo 100 100 [5; 6; 7; 8; 9; 10]] 2.
Proof.
  repeat split; try (repeat constructor); vm_compute; congruence.
Qed.

Lemma UpdateScope_streams_stereo_witness :
  exists u,
    UpdateScope 8 (engine8 two_chunks 60 3) = Done u /\
    current_sample_ u =
      Z.min 8 (current_sample_ (engine8 two_chunks 60 3) +
               Z.of_nat (length (samples_ahead 2 two_chunks))) /\
    forall j : nat,
      current_sample_ (engine8 two_chunks 60 3) + Z.of_nat j < current_sample_ u ->
      current_scope_ u
        !! (Z.to_nat (current_sample_ (engine8 two_chunks 60 3)) + j)%nat =
      samples_ahead 2 two_chunks !! j.
Proof.
  exact (UpdateScope_streams_stereo 8 (engine8 two_chunks 60 3) _ _ 2
           two_chunks_wf two_chunks_stereo_head).
Defined.

Lemma scope_returns_stereo_window_witness :
  exists ready s',
    scope 8 (engine8 two_chunks 60 3) = Done (ready, s') /\
    current_sample_ s' = 0 /\
    length ready = Z.to_nat 8 /\
    forall k : nat,
      Z.of_nat k < 8 ->
      ready !! k =
        if Z.of_nat k <? current_sample_ (engine8 two_chunks 60 3)
        then current_scope_ (engine8 two_chunks 60 3) !! k
        else samples_ahead 2 two_chunks
               !! (k - Z.to_nat (current_sample_ (engine8 two_chunks 60 3)))%nat.
Proof.
  refine (scope_returns_stereo_window 8 (engine8 two_chunks 60 3) _ _ 2
            two_chunks_wf two_chunks_stereo_head _).
  vm_compute. discriminate.
Defined.

(** ** When an extraction has nothing to do *)

(** X6: an extraction does nothing beyond the pruning when the pruned queue
    is empty (underrun), when its head chunk has more than two channels, or
    when the position does not lie strictly inside the head chunk (clock
    mismatch): no fault, no sample copied, no chunk released. *)
Theorem UpdateScope_idle (SCOPESIZE : Z) (s : GstEngine) :
  match delayq_ (pruned s) with
  | [] => True
  | buf :: _ =>
      2 < gst_structure_get_int (caps_channels buf) 2 \/
      to_quint64 (fst (PruneScope s)) <= GST_BUFFER_TIMESTAMP buf \/
      buffer_etime buf <= to_quint64 (fst (PruneScope s))
  end ->
  UpdateScope SCOPESIZE s = Done (pruned s).
Proof.
  unfold UpdateScope, pruned. destruct (PruneScope s) as [pos s0]; cbn.
  destruct (delayq_ s0) as [|buf rest] eqn:Eq; cbn; [reflexivity |].
  intros Hidle.
  destruct (2 <? _) eqn:E; [reflexivity |].
  destruct (to_quint64 pos <=? GST_BUFFER_TIMESTAMP buf) eqn:E1; [reflexivity |].
  destruct (buffer_etime buf <=? to_quint64 pos) eqn:E2; [reflexivity |].
  lia.
Qed.

(** Chunk C starts at 10; the position is 5. *)
Lemma UpdateScope_idle_witness :
  UpdateScope 8 (engine8 [chunkC] 5 0) = Done (pruned (engine8 [chunkC] 5 0)).
Proof.
  apply (UpdateScope_idle 8 (engine8 [chunkC] 5 0)).
  right. left. vm_compute. discriminate.
Defined.

(** ** Pruning again *)

Lemma prune_loop_later (p p' : Z) (q : list GstBuffer) :
  p <= p' -> prune_loop p' (prune_loop p q) = prune_loop p' q.
Proof.
  intros Hle. induction q as [|buf rest IH]; cbn; [reflexivity |].
  destruct (to_qint64 (buffer_etime buf) <? p) eqn:E.
  - rewrite IH. destruct (to_qint64 (buffer_etime buf) <? p') eqn:E'; [reflexivity | lia].
  - reflexivity.
Qed.

(** X7: pruning composes.  A timer tick right after a timer tick changes
    nothing, and when the pipeline has moved on in between, the second tick
    leaves the queue that a single tick at the later position would have
    left: no tick is ever missed. *)
Theorem timerEvent_catches_up (p' : GstEnginePipeline) (s : GstEngine) :
  (forall p, current_pipeline_ s = Some p -> position p <= position p') ->
  timerEvent (pipeline_progress p' (timerEvent s)) =
  timerEvent (pipeline_progress p' s) /\
  timerEvent (timerEvent s) = timerEvent s.
Proof.
  intros Hle. unfold timerEvent, pipeline_progress, PruneScope.
  destruct (current_pipeline_ s) as [p|] eqn:E; cbn; rewrite ?E; cbn.
  - rewrite prune_loop_later by (apply Hle; reflexivity).
    rewrite prune_loop_idem. split; reflexivity.
  - rewrite ?E. split; reflexivity.
Qed.

(** From position 20 to position 120 over the two overlapping chunks. *)
Lemma timerEvent_catches_up_witness :
  timerEvent (pipeline_progress (pipeline_at 120)
                (timerEvent (engine8 overlapping 20 0))) =
  timerEvent (pipeline_progress (pipeline_at 120) (engine8 overlapping 20 0)) /\
  timerEvent (timerEvent (engine8 overlapping 20 0)) =
  timerEvent (engine8 overlapping 20 0).
Proof.
  apply (timerEvent_catches_up (pipeline_at 120) (engine8 overlapping 20 0)).
  intros p Hp. inversion Hp; subst. vm_compute. discriminate.
Defined.

(** ** The queue over a run of calls *)

Lemma destroy_current_pipeline_drop (s : GstEngine) :
  exists k, delayq_ (destroy_current_pipeline s) = drop k (delayq_ s).
Proof.
  unfold destroy_current_pipeline. destruct (current_pipeline_ s); cbn.
  - exists (length (delayq_ s)). rewrite clear_loop_nil. by rewrite drop_all.
  - by exists 0%nat.
Qed.

Lemma seek_drop (ms : Z) (s : GstEngine) :
  exists k, delayq_ (seek ms s) = drop k (delayq_ s).
Proof.
  unfold seek. destruct (current_pipeline_ s) as [p|]; [| by exists 0%nat].
  destruct (Seek p _); cbn; [| by exists 0%nat].
  exists (length (delayq_ s)). rewrite clear_loop_nil. by rewrite drop_all.
Qed.

(** Every call but [NewBuffer] only ever takes chunks off the head. *)
Lemma run_call_drop (SCOPESIZE : Z) (c : call) (s s' : GstEngine) :
  (forall buf, c <> CallNewBuffer buf) ->
  run_call SCOPESIZE c s = Done s' ->
  exists k, delayq_ s' = drop k (delayq_ s).
Proof.
  intros Hc.
  destruct c; cbn; intros H;
    try (apply bind_Done in H as ([x t] & Hp & H); cbn in H);
    inversion H; subst; clear H.
  - exfalso. by eapply Hc.
  - apply scope_Done in Hp as (_ & u & Hu & Hcase).
    apply UpdateScope_consumes in Hu as (_ & _ & _ & _ & Hk & _).
    destruct Hcase as [(_ & ->) | (_ & ->)]; exact Hk.
  - apply PruneScope_drop.
  - unfold load. destruct created; cbn.
    + apply destroy_current_pipeline_drop.
    + exists (length (delayq_ s)). rewrite clear_loop_nil. by rewrite drop_all.
  - unfold play in Hp. destruct (current_pipeline_ s) as [p|]; [| discriminate].
    destruct (SetState_PLAYING p); inversion Hp; subst; cbn.
    + destruct (offset =? 0); cbn; [by exists 0%nat |].
      apply (seek_drop offset (set_fadeout_pipeline_ None s)).
    + apply destroy_current_pipeline_drop.
  - unfold stop. destruct (fadeout_enabled_ s); cbn.
    + exists (length (delayq_ s)). rewrite clear_loop_nil. by rewrite drop_all.
    + apply destroy_current_pipeline_drop.
  - apply seek_drop.
  - apply destroy_current_pipeline_drop.
  - apply destroy_current_pipeline_drop.
  - by exists 0%nat.
  - by exists 0%nat.
  - unfold pipeline_progress. destruct (current_pipeline_ s); by exists 0%nat.
Qed.

Lemma run_calls_drop (SCOPESIZE : Z) (calls : list call) (s s' : GstEngine) :
  run_calls SCOPESIZE calls s = Done s' ->
  exists k, delayq_ s' = drop k (delayq_ s ++ arrivals calls).
Proof.
  revert s. induction calls as [|c calls IH]; intros s H; cbn in H.
  - inversion H; subst. exists 0%nat. cbn. by rewrite app_nil_r.
  - apply bind_Done in H as (s1 & H1 & H).
    apply IH in H as (k & Hk).
    assert (Hcase : (exists buf, c = CallNewBuffer buf) \/
                    (forall buf, c <> CallNewBuffer buf)).
    { destruct c; eauto; right; intros buf; discriminate. }
    destruct Hcase as [(buf & ->) | Hne].
    + cbn in H1. inversion H1; subst. cbn in Hk.
      exists k. rewrite Hk. unfold g_queue_push_tail.
      by rewrite <- app_assoc.
    + destruct (run_call_drop _ _ _ _ Hne H1) as (j & Hj).
      assert (arrivals (c :: calls) = arrivals calls) as ->.
      { destruct c; try reflexivity. exfalso. by eapply Hne. }
      rewrite Hk, Hj.
      destruct (decide (j <= length (delayq_ s))%nat) as [Hle | Hgt].
      * exists (j + k)%nat. rewrite <- drop_drop.
        rewrite (drop_app_le (delayq_ s) (arrivals calls) j) by lia. reflexivity.
      * exists (length (delayq_ s) + k)%nat. rewrite <- drop_drop.
        rewrite drop_app_length. rewrite (drop_ge (delayq_ s) j) by lia.
        reflexivity.
Qed.

(** X8: the delay queue is first in, first out over every run of calls: what
    is queued at the end is what was queued at the start followed by the
    buffers that arrived, in their order of arrival, less some chunks at the
    head.  No chunk is ever reordered, duplicated or taken from the middle. *)
Theorem delay_queue_is_fifo (SCOPESIZE : Z) (calls : list call) (s : GstEngine) :
  match run_calls SCOPESIZE calls s with
  | Done s' => exists k, delayq_ s' = drop k (delayq_ s ++ arrivals calls)
  | Fault _ => True
  end.
Proof.
  destruct (run_calls SCOPESIZE calls s) as [s'|f] eqn:E; [| exact I].
  exact (run_calls_drop _ _ _ _ E).
Qed.

Lemma destroy_current_pipeline_owner (s : GstEngine) :
  queue_has_owner s ->
  current_pipeline_ (destroy_current_pipeline s) = None /\
  delayq_ (destroy_current_pipeline s) = [].
Proof.
  unfold queue_has_owner, destroy_current_pipeline. intros Hinv.
  destruct (current_pipeline_ s) eqn:E; cbn; rewrite ?clear_loop_nil; auto.
Qed.

Lemma run_call_owner (SCOPESIZE : Z) (c : call) (s s' : GstEngine) :
  queue_has_owner s ->
  (forall buf, c = CallNewBuffer buf -> is_Some (current_pipeline_ s)) ->
  run_call SCOPESIZE c s = Done s' ->
  queue_has_owner s'.
Proof.
  intros Hinv Hfeed.
  destruct c; cbn; intros H;
    try (apply bind_Done in H as ([x t] & Hp & H); cbn in H);
    inversion H; subst; clear H.
  - destruct (Hfeed buf eq_refl) as [p Hp]. unfold queue_has_owner. cbn. congruence.
  - apply scope_Done in Hp as (_ & u & Hu & Hcase).
    apply UpdateScope_consumes in Hu as (_ & Hp & _ & _ & (k & Hk) & _).
    assert (queue_has_owner u) as Hu.
    { intros Hn. rewrite Hk, Hinv by congruence. by rewrite drop_nil. }
    destruct Hcase as [(_ & ->) | (_ & ->)]; exact Hu.
  - unfold timerEvent. pose proof (PruneScope_frame s) as (_&_&_&Hp&_).
    destruct (PruneScope_drop s) as (k & Hk). cbn in Hp.
    intros Hn. rewrite Hk, Hinv by congruence. by rewrite drop_nil.
  - unfold load. destruct created; cbn.
    + unfold queue_has_owner. cbn. discriminate.
    + intros _. cbn. apply clear_loop_nil.
  - unfold play in Hp. destruct (current_pipeline_ s) as [p|] eqn:E; [| discriminate].
    destruct (SetState_PLAYING p); inversion Hp; subst.
    + unfold queue_has_owner. cbn. intros Hn. exfalso.
      destruct (offset =? 0); cbn in Hn; [congruence |].
      unfold seek in Hn. cbn in Hn. rewrite E in Hn.
      destruct (Seek p _); cbn in Hn; congruence.
    + intros _. apply destroy_current_pipeline_owner, Hinv.
  - unfold stop. destruct (fadeout_enabled_ s).
    + intros _. cbn. apply clear_loop_nil.
    + intros _. apply destroy_current_pipeline_owner, Hinv.
  - unfold seek. destruct (current_pipeline_ s) as [p|] eqn:E; [| exact Hinv].
    destruct (Seek p _); [| exact Hinv]. intros _. cbn. apply clear_loop_nil.
  - intros _. apply destroy_current_pipeline_owner, Hinv.
  - intros _. apply destroy_current_pipeline_owner, Hinv.
  - exact Hinv.
  - exact Hinv.
  - unfold pipeline_progress. destruct (current_pipeline_ s) eqn:E; [| exact Hinv].
    unfold queue_has_owner. cbn. discriminate.
Qed.

(** X9: no chunk outlives its pipeline.  In every run from the constructor
    in which buffers arrive only while there is a current pipeline, an
    engine without a current pipeline (after [stop], an end of stream, a
    pipeline error or a failed [play]) has an empty delay queue. *)
Theorem no_pipeline_no_queue (SCOPESIZE : Z) (ready0 garbage : list Z)
    (fadeout : bool) (calls : list call) (s : GstEngine) :
  played_by_pipeline SCOPESIZE calls (GstEngine_new ready0 garbage fadeout) ->
  run_calls SCOPESIZE calls (GstEngine_new ready0 garbage fadeout) = Done s ->
  current_pipeline_ s = None -> delayq_ s = [].
Proof.
  assert (Hgen : forall s0, queue_has_owner s0 ->
            played_by_pipeline SCOPESIZE calls s0 ->
            run_calls SCOPESIZE calls s0 = Done s -> queue_has_owner s).
  { induction calls as [|c calls IH]; intros s0 Hinv Hfeed H; cbn in H.
    - inversion H; subst. exact Hinv.
    - apply bind_Done in H as (s1 & H1 & H).
      destruct Hfeed as (Hc & Hrest). rewrite H1 in Hrest.
      eapply IH; [| exact Hrest | exact H].
      eapply run_call_owner; [exact Hinv | | exact H1].
      intros buf ->. exact Hc. }
  intros Hfeed Hrun. eapply Hgen; [| exact Hfeed | exact Hrun].
  intros _. reflexivity.
Qed.

(** The run [short_track]: a chunk is queued when the stream ends. *)
Lemma no_pipeline_no_queue_witness : delayq_ after_short_track = [].
Proof.
  apply (no_pipeline_no_queue 8 (replicate 8 0) (replicate 8 0) true
           short_track after_short_track).
  - cbn. repeat split. eexists. reflexivity.
  - vm_compute. reflexivity.
  - reflexivity.
Defined.

(** X10: [ClearScopeQ] empties a queue of any length and touches nothing
    else; clearing twice is clearing once, and on an empty queue it leaves
    the engine exactly as it was. *)
Theorem ClearScopeQ_idempotent (s : GstEngine) :
  ClearScopeQ s = set_delayq_ [] s /\
  ClearScopeQ (ClearScopeQ s) = ClearScopeQ s /\
  (delayq_ s = [] -> ClearScopeQ s = s).
Proof.
  unfold ClearScopeQ. cbn. rewrite clear_loop_nil. repeat split.
  intros Hq. rewrite <- Hq. apply set_delayq__id.
Qed.

(** ** Position, length and state *)




(** X12: [position] and [length] are 0 without a pipeline, always fit a
    [uint], and read 0 for every time of less than a millisecond on either
    side of 0 (an unknown position, -1, included), since the division
    truncates towards zero. *)
Theorem position_range (pipeline_length : GstEnginePipeline -> Z)
    (s : GstEngine) :
  0 <= engine_position s < 2 ^ 32 /\
  0 <= engine_length pipeline_length s < 2 ^ 32 /\
  match current_pipeline_ s with
  | None => engine_position s = 0 /\ engine_length pipeline_length s = 0
  | Some p =>
      (- GST_MSECOND < position p < GST_MSECOND -> engine_position s = 0) /\
      (- GST_MSECOND < pipeline_length p < GST_MSECOND ->
       engine_length pipeline_length s = 0)
  end.
Proof.
  unfold engine_position, engine_length, msec_of, to_uint.
  assert (Hsmall : forall t, - GST_MSECOND < t < GST_MSECOND ->
                             Z.quot t GST_MSECOND = 0).
  { intros t Ht. apply Z.quot_small_iff; unfold GST_MSECOND in *; lia. }
  destruct (current_pipeline_ s) as [p|].
  - split; [apply Z.mod_pos_bound; lia |].
    split; [apply Z.mod_pos_bound; lia |].
    split; intros Ht; rewrite (Hsmall _ Ht); reflexivity.
  - repeat split; lia.
Qed.

Lemma stop_no_pipeline (s : GstEngine) : current_pipeline_ (stop s) = None.
Proof.
  unfold stop, destroy_current_pipeline.
  destruct (fadeout_enabled_ s); [reflexivity |].
  destruct (current_pipeline_ s) eqn:E; [reflexivity | exact E].
Qed.

(** X13: after [stop] the engine has no current pipeline and [state]
    returns [Engine::Empty], whatever it returned before and whatever the
    pipelines report (the purpose that the comment in [stop] gives for
    clearing [m_url]).  A second [stop] in a row, with the fade-out enabled,
    replaces the pipeline that is fading out by the null pipeline. *)
Theorem stop_then_state_Empty (pipeline_state : GstEnginePipeline -> GstState)
    (e : Playback) :
  state pipeline_state (stop_playback e) = Engine_Empty /\
  current_pipeline_ (engine (stop_playback e)) = None /\
  fadeout_pipeline_ (engine (stop_playback (stop_playback e))) =
    (if fadeout_enabled_ (engine e) then None
     else fadeout_pipeline_ (engine e)).
Proof.
  unfold state, stop_playback. cbn. rewrite stop_no_pipeline.
  split; [reflexivity |]. split; [reflexivity |].
  unfold stop at 1.
  assert (Hen : fadeout_enabled_ (stop (engine e)) = fadeout_enabled_ (engine e)).
  { unfold stop, destroy_current_pipeline.
    destruct (fadeout_enabled_ (engine e)) eqn:E; cbn; [exact E |].
    destruct (current_pipeline_ (engine e)); cbn; exact E. }
  rewrite Hen. destruct (fadeout_enabled_ (engine e)) eqn:E; cbn.
  - apply stop_no_pipeline.
  - unfold destroy_current_pipeline. rewrite stop_no_pipeline.
    unfold stop, destroy_current_pipeline. rewrite E.
    destruct (current_pipeline_ (engine e)); reflexivity.
Qed.

(** ** Load and play *)

(** X14: [play] right after a successful [load] never goes through a null
    pipeline.  It returns what [SetState] of the loaded pipeline returns;
    when that is true the loaded pipeline is current, no pipeline is fading
    out, the build cursor is at 0 and, for a non-zero offset whose seek
    succeeds, the queue is empty; when it is false the engine is left
    without a pipeline, with an empty queue and the cursor where it was.
    Without a current pipeline [play] dereferences the null pointer. *)
Theorem load_then_play (p : GstEnginePipeline) (offset : Z) (s : GstEngine) :
  match play offset (snd (load (Some p) s)) with
  | Done (started, s') =>
      started = SetState_PLAYING p /\
      if started then
        current_pipeline_ s' = Some p /\
        fadeout_pipeline_ s' = None /\
        current_sample_ s' = 0 /\
        (offset <> 0 -> Seek p (offset * GST_MSECOND) = true -> delayq_ s' = [])
      else
        current_pipeline_ s' = None /\
        delayq_ s' = [] /\
        current_sample_ s' = current_sample_ s
  | Fault _ => False
  end /\
  (current_pipeline_ s = None -> play offset s = Fault NullPipeline).
Proof.
  split; [| intros Hn; unfold play; by rewrite Hn].
  unfold load, play. cbn.
  pose proof (destroy_current_pipeline_frame s) as (Hc & _).
  destruct (SetState_PLAYING p) eqn:E; cbn.
  - split; [reflexivity |].
    destruct (offset =? 0) eqn:E0; cbn.
    + repeat split. intros Hne. lia.
    + unfold seek. cbn. destruct (Seek p (offset * GST_MSECOND)) eqn:Es; cbn.
      * repeat split. intros _ _. apply clear_loop_nil.
      * repeat split. intros _ Hs. discriminate.
  - split; [reflexivity |]. rewrite clear_loop_nil. repeat split. exact Hc.
Qed.

(** ** [canDecode] *)

Lemma endsWith_app (a b : string) : endsWith (a +:+ b) b = true.
Proof.
  induction a as [|c a IH].
  - change (endsWith b b = true).
    destruct b; cbn [endsWith]; rewrite String.eqb_refl; reflexivity.
  - change (endsWith (String c (a +:+ b)) b = true). cbn [endsWith].
    rewrite IH. apply orb_true_r.
Qed.

Lemma latin_toLower_app (a b : string) :
  latin_toLower (a +:+ b) = latin_toLower a +:+ latin_toLower b.
Proof.
  induction a as [|c a IH]; [reflexivity |].
  change (String (ascii_toLower c) (latin_toLower (a +:+ b)) =
          String (ascii_toLower c) (latin_toLower a +:+ latin_toLower b)).
  by rewrite IH.
Qed.

Lemma contains_empty (s : string) : contains s "" = true.
Proof. destruct s; reflexivity. Qed.

Lemma deliver_signal_success (f : can_decode_flags) (sig : decodebin_signal) :
  can_decode_success_ (deliver_signal f sig) = true <->
  can_decode_success_ f = true \/ audio_pad sig.
Proof.
  destruct sig as [[|str rest]|]; cbn.
  - split; [auto |]. intros [H | (n & r & H & _)]; [exact H | discriminate].
  - destruct (contains str "audio") eqn:E; cbn.
    + split; [| reflexivity]. intros _. right. by exists str, rest.
    + split; [auto |]. intros [H | (n & r & H & Ha)]; [exact H |].
      inversion H; subst. congruence.
  - split; [auto |]. intros [H | (n & r & H & _)]; [exact H | discriminate].
Qed.

Lemma deliver_success (l : list decodebin_signal) (f : can_decode_flags) :
  can_decode_success_ (deliver l f) = true <->
  can_decode_success_ f = true \/ exists sig, sig ∈ l /\ audio_pad sig.
Proof.
  unfold deliver. revert f. induction l as [|sig l IH]; intros f; cbn.
  - split; [auto |]. intros [H | (sig & Hin & _)]; [exact H |].
    by apply elem_of_nil in Hin.
  - rewrite IH, deliver_signal_success. split.
    + intros [[H | H] | (sig' & Hin & Ha)]; [auto | |].
      * right. exists sig. split; [apply elem_of_cons; by left | exact H].
      * right. exists sig'. split; [apply elem_of_cons; by right | exact Ha].
    + intros [H | (sig' & Hin & Ha)]; [auto |].
      apply elem_of_cons in Hin as [-> | Hin]; [auto |].
      right. eauto.
Qed.

Lemma can_decode_wait_count (n : nat) (signals : nat -> list decodebin_signal)
    (count : nat) (f : can_decode_flags) :
  (count <= fst (can_decode_wait n signals count f) <= count + n)%nat.
Proof.
  revert count f. induction n as [|n IH]; intros count f; cbn.
  - destruct (_ && _); cbn; lia.
  - destruct (_ && _); cbn; [| lia].
    specialize (IH (S count) (deliver (signals count) f)). lia.
Qed.

Lemma can_decode_wait_success (n : nat) (signals : nat -> list decodebin_signal)
    (count : nat) (f : can_decode_flags) :
  can_decode_success_ (snd (can_decode_wait n signals count f)) = true ->
  can_decode_success_ f = true \/
  exists k sig, (count <= k <= count + n)%nat /\ sig ∈ signals k /\ audio_pad sig.
Proof.
  revert count f. induction n as [|n IH]; intros count f; cbn.
  - assert (Hhere : can_decode_success_ (deliver (signals count) f) = true ->
              can_decode_success_ f = true \/
              exists k sig, (count <= k <= count + 0)%nat /\ sig ∈ signals k /\
                            audio_pad sig).
    { intros H. apply deliver_success in H as [H | (sig & Hin & Ha)]; [auto |].
      right. exists count, sig. split; [lia | auto]. }
    destruct (_ && _); cbn; exact Hhere.
  - destruct (_ && _) eqn:E; cbn.
    + intros H. apply IH in H as [H | (k & sig & Hk & Hin & Ha)].
      * apply deliver_success in H as [H | (sig & Hin & Ha)]; [auto |].
        right. exists count, sig. split; [lia | auto].
      * right. exists k, sig. split; [lia | auto].
    + intros H. apply deliver_success in H as [H | (sig & Hin & Ha)]; [auto |].
      right. exists count, sig. split; [lia | auto].
Qed.

(** While nothing arrives the loop keeps waiting. *)
Lemma can_decode_wait_silence (n k : nat) (signals : nat -> list decodebin_signal)
    (count : nat) :
  (forall j, (count <= j < count + k)%nat -> signals j = []) ->
  (k <= n)%nat ->
  can_decode_wait n signals count
    {| can_decode_success_ := false; can_decode_last_ := false |} =
  can_decode_wait (n - k) signals (count + k)
    {| can_decode_success_ := false; can_decode_last_ := false |}.
Proof.
  revert n count. induction k as [|k IH]; intros n count Hsil Hk.
  - by rewrite Nat.sub_0_r, Nat.add_0_r.
  - destruct n as [|n]; [lia |]. cbn [can_decode_wait].
    rewrite (Hsil count) by lia. cbn.
    rewrite IH by (try lia; intros j Hj; apply Hsil; lia).
    f_equal. lia.
Qed.

Section CanDecodeProperties.

Variable toLower : string -> string.
Hypothesis toLower_app :
  forall a b, toLower (a +:+ b) = toLower a +:+ toLower b.

(** X15: [canDecode] refuses video files by the ending of the path in any
    capitalisation: for a lower-casing that works character by character,
    every path that ends in an ending whose lower case is ".mov", ".avi" or
    ".wmv" is answered with false, whatever the pipeline would report. *)
Theorem canDecode_refuses_video (stem ext : string)
    (signals : nat -> list decodebin_signal) :
  toLower ext = ".mov" \/ toLower ext = ".avi" \/ toLower ext = ".wmv" ->
  canDecode toLower (stem +:+ ext) signals = false.
Proof.
  intros Hext. unfold canDecode, is_video. rewrite toLower_app.
  destruct Hext as [-> | [-> | ->]]; rewrite endsWith_app;
    rewrite ?orb_true_r; reflexivity.
Qed.

(** X16: the wait of [canDecode] is bounded and its answer is sound.  The
    loop sleeps at most 100 times.  [canDecode] returns true only for a path
    that is not a video ending and only if a pad with "audio" in the name of
    its first caps structure was announced before the flag is read; and it
    does return true when such a pad is the first thing announced, within the
    100 waits. *)
Theorem canDecode_polls (path : string) (signals : nat -> list decodebin_signal) :
  let start := {| can_decode_success_ := false; can_decode_last_ := false |} in
  (fst (can_decode_wait 100 signals 0 start) <= 100)%nat /\
  (canDecode toLower path signals = true ->
   is_video toLower path = false /\
   exists k sig, (k <= 101)%nat /\ sig ∈ signals k /\ audio_pad sig) /\
  (forall k sig,
     is_video toLower path = false ->
     (k <= 100)%nat ->
     (forall j, (j < k)%nat -> signals j = []) ->
     sig ∈ signals k -> audio_pad sig ->
     canDecode toLower path signals = true).
Proof.
  cbv zeta. split; [| split].
  - pose proof (can_decode_wait_count 100 signals 0
                  {| can_decode_success_ := false; can_decode_last_ := false |}).
    lia.
  - unfold canDecode. destruct (is_video toLower path); [discriminate |].
    pose proof (can_decode_wait_count 100 signals 0
                  {| can_decode_success_ := false; can_decode_last_ := false |})
      as Hcount.
    pose proof (can_decode_wait_success 100 signals 0
                  {| can_decode_success_ := false; can_decode_last_ := false |})
      as Hwait.
    destruct (can_decode_wait 100 signals 0 _) as [count f]. cbn in *.
    intros H. split; [reflexivity |].
    apply deliver_success in H as [H | (sig & Hin & Ha)].
    + apply Hwait in H as [H | (k & sig & Hk & Hin & Ha)]; [discriminate |].
      exists k, sig. split; [lia | auto].
    + exists (S count), sig. split; [lia | auto].
  - intros k sig Hvid Hk Hsil Hin Ha. unfold canDecode. rewrite Hvid.
    rewrite (can_decode_wait_silence 100 k signals 0)
      by (try lia; intros j Hj; apply Hsil; lia).
    cbn [Nat.add].
    assert (Hnow : can_decode_success_
                     (deliver (signals k)
                        {| can_decode_success_ := false; can_decode_last_ := false |})
                   = true).
    { apply deliver_success. right. eauto. }
    destruct (100 - k)%nat as [|n]; cbn [can_decode_wait]; rewrite Hnow; cbn;
      apply deliver_success; left; exact Hnow.
Qed.

End CanDecodeProperties.

(** A film with its ending in capitals. *)
Lemma canDecode_refuses_video_witness :
  canDecode latin_toLower ("Holiday" +:+ ".MOV") (fun _ => []) = false.
Proof.
  apply (canDecode_refuses_video latin_toLower latin_toLower_app
           "Holiday" ".MOV" (fun _ => [])).
  left. reflexivity.
Defined.

(** ** [GetPluginList] *)

Lemma plugin_loop_spec (features : list GstElementFactory) (classname : string)
    (ret : list PluginDetails) :
  plugin_loop features classname ret =
  (ret ++ (details_of <$>
             List.filter (fun f => contains (details_klass f) classname) features),
   []).
Proof.
  revert ret. induction features as [|f next IH]; intros ret; cbn.
  - by rewrite app_nil_r.
  - rewrite IH. destruct (contains (details_klass f) classname); cbn.
    + by rewrite <- app_assoc.
    + reflexivity.
Qed.

(** X17: [GetPluginList] returns, in the order of the registry, the details
    of exactly the factories whose class contains the class name asked for,
    so all of them for the empty name; and the list that it hands to
    [gst_plugin_feature_list_free] is always the null list, the loop having
    walked the pointer to the end: the list obtained from the registry is
    never released. *)
Theorem GetPluginList_selects (registry : list GstElementFactory)
    (classname : string) :
  snd (GetPluginList registry classname) = [] /\
  fst (GetPluginList registry classname) =
    details_of <$>
      List.filter (fun f => contains (details_klass f) classname) registry /\
  fst (GetPluginList registry "") = details_of <$> registry.
Proof.
  unfold GetPluginList. rewrite !plugin_loop_spec. cbn. repeat split.
  f_equal. induction registry as [|f next IH]; cbn; [reflexivity |].
  rewrite contains_empty. by rewrite IH.
Qed.
